(** * Smart-Fridge Culinary Assistant: gateway, pipeline and narration

    A shallow embedding of the three pieces of logic of the application:

    - [services/geminiService.ts]: [analyzeFridgeContents], [getRecipes],
      [generateRecipeImage];
    - [App.tsx]: [handleImageUpload], [handleFilterChange] and what the
      result grid renders;
    - [components/RecipeModal.tsx]: [stopSpeaking], the narration effect,
      [handlePlayPause], [handleStop] and the ingredient highlighting.

    The generative service, the file reader and the browser's speech
    synthesiser are collaborators: what they answer is an input of the
    model.  JavaScript strings are modelled by [string], whose characters are
    the code units U+0000..U+00FF; on that range [trim], [toLowerCase],
    [split] and [includes] below are the JavaScript functions. *)

From Stdlib Require Import ZArith List Bool Ascii String Lia.
From Stdlib Require Import Numbers.DecimalString.
Import ListNotations.

Local Open Scope list_scope.
Local Open Scope string_scope.

(** ** JavaScript string primitives used by the source *)

Module Js.

Definition code (c : ascii) : nat := nat_of_ascii c.

(** [WhiteSpace] and [LineTerminator] code points below U+0100: TAB, LF, VT,
    FF, CR, SP and NBSP.  These are what [String.prototype.trim] strips. *)
Definition isWhiteSpace (c : ascii) : bool :=
  let n := code c in
  ((9 <=? n) && (n <=? 13) || (n =? 32) || (n =? 160))%nat.

(** Code points with a lowercase mapping below U+0100: A-Z, and U+00C0 to
    U+00DE without the multiplication sign U+00D7. *)
Definition isUpper (c : ascii) : bool :=
  let n := code c in
  ((65 <=? n) && (n <=? 90)
   || (192 <=? n) && (n <=? 222) && negb (n =? 215))%nat.

Definition lowerChar (c : ascii) : ascii :=
  if isUpper c then ascii_of_nat (code c + 32) else c.

(** [s.toLowerCase()] *)
Fixpoint toLowerCase (s : string) : string :=
  match s with
  | EmptyString => EmptyString
  | String c r => String (lowerChar c) (toLowerCase r)
  end.

Fixpoint trimStart (s : string) : string :=
  match s with
  | EmptyString => EmptyString
  | String c r => if isWhiteSpace c then trimStart r else s
  end.

Fixpoint trimEnd (s : string) : string :=
  match s with
  | EmptyString => EmptyString
  | String c r =>
      match trimEnd r with
      | EmptyString => if isWhiteSpace c then EmptyString else String c EmptyString
      | r' => String c r'
      end
  end.

(** [s.trim()] *)
Definition trim (s : string) : string := trimEnd (trimStart s).

(** [s.split(sep)] for a separator of one character: the pieces between
    the separators, empty pieces kept, and one empty piece for [""] . *)
Fixpoint split (sep : ascii) (s : string) : list string :=
  match s with
  | EmptyString => [EmptyString]
  | String c r =>
      if Ascii.eqb c sep then EmptyString :: split sep r
      else match split sep r with
           | h :: t => String c h :: t
           | [] => [String c EmptyString]
           end
  end.

(** [a.join(sep)] *)
Fixpoint join (sep : string) (l : list string) : string :=
  match l with
  | [] => EmptyString
  | [x] => x
  | x :: t => x ++ sep ++ join sep t
  end.

Fixpoint startsWith (p s : string) : bool :=
  match p, s with
  | EmptyString, _ => true
  | String a p', String b s' => Ascii.eqb a b && startsWith p' s'
  | String _ _, EmptyString => false
  end.

(** [s.includes(p)]: [p] occurs in [s] at some position. *)
Fixpoint includes (s p : string) : bool :=
  startsWith p s
  || match s with
     | EmptyString => false
     | String _ r => includes r p
     end.

(** Truthiness of a string: [Boolean(s)], also the test of [!s]. *)
Definition truthy (s : string) : bool :=
  match s with EmptyString => false | _ => true end.

(** A template literal's rendering of a non-negative integer. *)
Definition showInt (z : Z) : string := NilZero.string_of_int (Z.to_int z).

End Js.

(** ** Data model ([types.ts]) *)

Inductive DietaryRestriction :=
  Vegetarian | Keto | GlutenFree | Vegan | LowCarb | HighProtein | Pescatarian.

Inductive Difficulty := Easy | Medium | Hard.

Record RecipeIngredient := mkIngredient {
  ingName : string;
  quantity : string
}.

Record Recipe := mkRecipe {
  name : string;
  difficulty : Difficulty;
  prepTime : string;
  calories : Z;
  ingredients : list RecipeIngredient;
  instructions : list string;
  imageUrl : option string      (* [imageUrl?: string] *)
}.

(** [{ ...recipe, imageUrl }] *)
Definition withImageUrl (recipe : Recipe) (url : string) : Recipe :=
  {| name := name recipe;
     difficulty := difficulty recipe;
     prepTime := prepTime recipe;
     calories := calories recipe;
     ingredients := ingredients recipe;
     instructions := instructions recipe;
     imageUrl := Some url |}.

(** ** Promises that resolve or reject *)

Inductive Result (A : Type) :=
| Ok (value : A)
| Threw (message : string).     (* [throw new Error(message)] *)
Arguments Ok {A} value.
Arguments Threw {A} message.

Definition bind {A B} (r : Result A) (k : A -> Result B) : Result B :=
  match r with
  | Ok a => k a
  | Threw m => Threw m
  end.

(** [try { body } catch (error) { throw new Error(message) }] *)
Definition rethrowAs {A} (message : string) (body : Result A) : Result A :=
  match body with
  | Ok a => Ok a
  | Threw _ => Threw message
  end.

Notation "x <- r ;; k" := (bind r (fun x => k))
  (at level 61, r at next level, right associativity).

Definition failed {A} (r : Result A) : Prop := exists m, r = Threw m.

Definition failedb {A} (r : Result A) : bool :=
  match r with Ok _ => false | Threw _ => true end.

(** One call of [ai.models.generateContent]: the promise rejects, or it
    resolves with a response. *)
Inductive Call (R : Type) :=
| Rejects
| Resolves (response : R).
Arguments Rejects {R}.
Arguments Resolves {R} response.

(** ** The gateway ([services/geminiService.ts]) *)

Module Gateway.

Record Blob := mkBlob {
  data : string;
  mimeType : string
}.

(** A part of a response's content; [inlineData] is absent on text parts. *)
Record Part := mkPart {
  partText : option string;
  inlineData : option Blob
}.

(** [response.candidates[i].content.parts] *)
Record Candidate := mkCandidate {
  parts : list Part
}.

(** What [FileReader.readAsDataURL] ends with. *)
Inductive FileRead :=
| ReadError                        (* [reader.onerror] *)
| ReadNotString                    (* [typeof reader.result !== 'string'] *)
| ReadDataUrl (url : string).

(** [fileToGenerativePart]: the payload after the first comma of the data
    URL ([undefined] when there is none) with the file's type. *)
Definition fileToGenerativePart (fileType : string) (rd : FileRead)
  : Result (option string * string) :=
  match rd with
  | ReadError => Threw "error"
  | ReadNotString => Threw "Failed to read file as base64 string"
  | ReadDataUrl url => Ok (nth_error (Js.split "," url) 1, fileType)
  end.

Definition analyzeError : string := "Failed to analyze image with Gemini API.".

(** [ingredientsText.split(',').map(item => item.trim().toLowerCase()).filter(Boolean)] *)
Definition parseIngredients (ingredientsText : string) : list string :=
  filter Js.truthy
    (map (fun item => Js.toLowerCase (Js.trim item))
         (Js.split "," ingredientsText)).

(** [analyzeFridgeContents]; [vision] is the service's answer to the image
    and the prompt, its response reduced to [response.text]. *)
Definition analyzeFridgeContents (fileType : string) (rd : FileRead)
    (vision : Call (option string)) : Result (list string) :=
  rethrowAs analyzeError
    (imagePart <- fileToGenerativePart fileType rd ;;
     match vision with
     | Rejects => Threw "generateContent"
     | Resolves ingredientsText =>
         match ingredientsText with
         | None => Ok []                         (* [!undefined] *)
         | Some text =>
             if Js.truthy text then Ok (parseIngredients text)
             else Ok []                          (* [!""] *)
         end
     end).

Definition recipesError : string := "Failed to generate recipes with Gemini API.".

(** [getRecipes]; the service's answer to the prompt is reduced to what
    [JSON.parse(response.text.trim()).recipes] evaluates to, [None] when
    [response.text] is missing or is not JSON (both throw inside the [try]). *)
Definition getRecipes (generation : Call (option (list Recipe)))
  : Result (list Recipe) :=
  rethrowAs recipesError
    match generation with
    | Rejects => Threw "generateContent"
    | Resolves None => Threw "JSON.parse"
    | Resolves (Some recipes) => Ok recipes
    end.

Definition imageError (recipeName : string) : string :=
  "Failed to generate an image for the recipe: " ++ recipeName ++ ".".

Definition dataUriPrefix : string := "data:image/png;base64,".

(** The [for (const part of ...)] loop: the first part with [inlineData]. *)
Fixpoint firstInlineData (ps : list Part) : option Blob :=
  match ps with
  | [] => None
  | part :: rest =>
      match inlineData part with
      | Some blob => Some blob
      | None => firstInlineData rest
      end
  end.

(** [generateRecipeImage]; [synthesis] is the service's answer, its response
    reduced to [response.candidates]. *)
Definition generateRecipeImage (recipeName : string)
    (synthesis : Call (list Candidate)) : Result string :=
  rethrowAs (imageError recipeName)
    match synthesis with
    | Rejects => Threw "generateContent"
    | Resolves candidates =>
        match candidates with
        | [] => Threw "TypeError"                (* [candidates[0].content] *)
        | first :: _ =>
            match firstInlineData (parts first) with
            | Some blob => Ok (dataUriPrefix ++ data blob)
            | None => Threw "No image data found in Gemini response."
            end
        end
    end.

End Gateway.

(** ** The acquisition pipeline ([App.tsx]) *)

Module App.
Import Gateway.

Inductive AppState := Initial | Analyzing | Generating | Results.

Record File := mkFile {
  fileName : string;
  fileType : string
}.

(** The component's [useState] cells. *)
Record State := mkState {
  appState : AppState;
  error : option string;
  imageFile : option File;
  identifiedIngredients : list string;
  recipes : list Recipe;
  activeFilters : list DietaryRestriction;
  selectedRecipe : option Recipe
}.

Definition initialState : State :=
  {| appState := Initial; error := None; imageFile := None;
     identifiedIngredients := []; recipes := []; activeFilters := [];
     selectedRecipe := None |}.

(** The state setters a handler calls, in the order it calls them. *)
Inductive Update :=
| SetImageFile (f : File)
| SetAppState (s : AppState)
| SetError (e : option string)
| SetIdentifiedIngredients (l : list string)
| SetRecipes (l : list Recipe)
| SetActiveFilters (l : list DietaryRestriction).

Definition apply (st : State) (u : Update) : State :=
  match u with
  | SetImageFile f =>
      mkState (appState st) (error st) (Some f) (identifiedIngredients st)
              (recipes st) (activeFilters st) (selectedRecipe st)
  | SetAppState s =>
      mkState s (error st) (imageFile st) (identifiedIngredients st)
              (recipes st) (activeFilters st) (selectedRecipe st)
  | SetError e =>
      mkState (appState st) e (imageFile st) (identifiedIngredients st)
              (recipes st) (activeFilters st) (selectedRecipe st)
  | SetIdentifiedIngredients l =>
      mkState (appState st) (error st) (imageFile st) l
              (recipes st) (activeFilters st) (selectedRecipe st)
  | SetRecipes l =>
      mkState (appState st) (error st) (imageFile st) (identifiedIngredients st)
              l (activeFilters st) (selectedRecipe st)
  | SetActiveFilters l =>
      mkState (appState st) (error st) (imageFile st) (identifiedIngredients st)
              (recipes st) l (selectedRecipe st)
  end.

Definition run (st : State) (us : list Update) : State := fold_left apply us st.


(** What the collaborators answer during one run of a handler: the file
    reader, the ingredient call, the recipe call, and the image call issued
    for the recipe at each position of the generated list. *)
Record Answers := mkAnswers {
  reading : FileRead;
  vision : Call (option string);
  generation : Call (option (list Recipe));
  synthesis : nat -> Call (list Candidate)
}.

(** The callback given to [generatedRecipes.map]: the inner [try]/[catch]. *)
Definition attachImage (recipe : Recipe) (answer : Call (list Candidate)) : Recipe :=
  match generateRecipeImage (name recipe) answer with
  | Ok url => withImageUrl recipe url
  | Threw _ => recipe               (* return recipe without image on failure *)
  end.

(** [Promise.all(generatedRecipes.map(async recipe => ...))], the results in
    the order of the list; [i] is the position of the head. *)
Fixpoint attachFrom (synth : nat -> Call (list Candidate)) (i : nat)
    (generated : list Recipe) : list Recipe :=
  match generated with
  | [] => []
  | recipe :: rest => attachImage recipe (synth i) :: attachFrom synth (S i) rest
  end.

Definition recipesWithImages (synth : nat -> Call (list Candidate))
    (generated : list Recipe) : list Recipe :=
  attachFrom synth 0 generated.

Definition handleImageUpload (file : File) (w : Answers) : list Update :=
  ([SetImageFile file; SetAppState Analyzing; SetError None] ++
   match analyzeFridgeContents (fileType file) (reading w) (vision w) with
   | Threw message => [SetError (Some message); SetAppState Initial]
   | Ok ingredients =>
       [SetIdentifiedIngredients ingredients; SetAppState Generating] ++
       match getRecipes (generation w) with
       | Threw message => [SetError (Some message); SetAppState Initial]
       | Ok generatedRecipes =>
           [SetRecipes (recipesWithImages (synthesis w) generatedRecipes);
            SetAppState Results]
       end
   end)%list.

(** [identified] is the [identifiedIngredients] the callback closed over. *)
Definition handleFilterChange (identified : list string)
    (newFilters : list DietaryRestriction) (w : Answers) : list Update :=
  (SetActiveFilters newFilters ::
   if (0 <? List.length identified)%nat then
     [SetAppState Generating; SetError None] ++
     match getRecipes (generation w) with
     | Threw message => [SetError (Some message); SetAppState Results]
     | Ok generatedRecipes =>
         [SetRecipes (recipesWithImages (synthesis w) generatedRecipes);
          SetAppState Results]
     end
   else [])%list.

(** The recipe cards [renderContent] puts on the page. *)
Definition renderedRecipes (st : State) : list Recipe :=
  match appState st with
  | Results => recipes st
  | _ => []
  end.

(** [recipe.imageUrl || `https://picsum.photos/seed/${recipe.name}/400/300`] *)
Definition cardImage (recipe : Recipe) : string :=
  match imageUrl recipe with
  | Some url => if Js.truthy url then url
                else "https://picsum.photos/seed/" ++ name recipe ++ "/400/300"
  | None => "https://picsum.photos/seed/" ++ name recipe ++ "/400/300"
  end.


End App.

(** ** The recipe view ([components/RecipeModal.tsx]) *)

Module Modal.

(** *** The speech synthesiser

    [window.speechSynthesis] as the Web Speech API describes it: one
    utterance being spoken, a queue of utterances not yet begun, and a paused
    flag.  An utterance is its text and its [onend] handler; the handler the
    source installs is determined by the [currentStepIndex] it closed over. *)

Record Utterance := mkUtterance {
  text : string;
  closedIndex : Z
}.

Inductive SynthCall :=
| CallSpeak (u : Utterance)
| CallPause
| CallResume
| CallCancel.

Record Synth := mkSynth {
  spoken : option Utterance;     (* begun and not yet completed *)
  queued : list Utterance;
  paused : bool;
  calls : list SynthCall         (* every call made so far, oldest first *)
}.

Definition idle : Synth :=
  {| spoken := None; queued := []; paused := false; calls := [] |}.

(** [speechSynthesis.speaking] *)
Definition speaking (s : Synth) : bool :=
  match spoken s with Some _ => true | None => false end.

(** The head of the queue begins when nothing is spoken and the
    synthesiser is not paused. *)
Definition begin (s : Synth) : Synth :=
  match spoken s, paused s, queued s with
  | None, false, u :: rest => mkSynth (Some u) rest false (calls s)
  | _, _, _ => s
  end.

Definition speak (u : Utterance) (s : Synth) : Synth :=
  begin (mkSynth (spoken s) (queued s ++ [u])%list (paused s)
                 (calls s ++ [CallSpeak u])%list).

(** [cancel] empties the queue and stops the spoken utterance, which gets
    an [error] event and no [end] event: its [onend] handler does not run.
    The paused flag stays as it is. *)
Definition cancel (s : Synth) : Synth :=
  mkSynth None [] (paused s) (calls s ++ [CallCancel])%list.

Definition pause (s : Synth) : Synth :=
  mkSynth (spoken s) (queued s) true (calls s ++ [CallPause])%list.

Definition resume (s : Synth) : Synth :=
  begin (mkSynth (spoken s) (queued s) false (calls s ++ [CallResume])%list).

(** The utterance being spoken reaches its end. *)
Definition complete (s : Synth) : Synth :=
  begin (mkSynth None (queued s) (paused s) (calls s)).

(** *** The component *)

Record State := mkState {
  isSpeaking : bool;
  currentStepIndex : Z;
  utteranceRef : option Utterance;
  synth : Synth
}.

Definition initial : State :=
  {| isSpeaking := false; currentStepIndex := 0; utteranceRef := None;
     synth := idle |}.

Definition stepCount (recipe : Recipe) : Z :=
  Z.of_nat (List.length (instructions recipe)).

(** [recipe.instructions[i]] inside a template literal. *)
Definition instructionAt (recipe : Recipe) (i : Z) : string :=
  if (i <? 0)%Z then "undefined"
  else match nth_error (instructions recipe) (Z.to_nat i) with
       | Some s => s
       | None => "undefined"
       end.

(** [`Step ${currentStepIndex + 1}. ${recipe.instructions[currentStepIndex]}`] *)
Definition textToSpeak (recipe : Recipe) (i : Z) : string :=
  "Step " ++ Js.showInt (i + 1) ++ ". " ++ instructionAt recipe i.

Definition stopSpeaking (m : State) : State :=
  let s := if speaking (synth m) then cancel (synth m) else synth m in
  mkState false (currentStepIndex m) (utteranceRef m) s.

(** The body of the second [useEffect], run on the state [m] just rendered. *)
Definition narrationEffect (recipe : Recipe) (m : State) : State :=
  if isSpeaking m && (currentStepIndex m <? stepCount recipe)%Z then
    let m1 := stopSpeaking m in
    let utterance :=
      mkUtterance (textToSpeak recipe (currentStepIndex m)) (currentStepIndex m) in
    mkState (isSpeaking m1) (currentStepIndex m1) (Some utterance)
            (speak utterance (synth m1))
  else m.

(** [utterance.onend] of an utterance created at step [closedIndex u]. *)
Definition onend (recipe : Recipe) (u : Utterance) (m : State) : State :=
  if (closedIndex u <? stepCount recipe - 1)%Z then
    mkState (isSpeaking m) (currentStepIndex m + 1) (utteranceRef m) (synth m)
  else
    mkState false (currentStepIndex m) (utteranceRef m) (synth m).

Definition handlePlayPause (recipe : Recipe) (m : State) : State :=
  if isSpeaking m then
    mkState false (currentStepIndex m) (utteranceRef m) (pause (synth m))
  else if paused (synth m) then
    mkState true (currentStepIndex m) (utteranceRef m) (resume (synth m))
  else if (currentStepIndex m >=? stepCount recipe)%Z then
    mkState true 0 (utteranceRef m) (synth m)
  else
    mkState true (currentStepIndex m) (utteranceRef m) (synth m).

Definition handleStop (m : State) : State :=
  let m1 := stopSpeaking m in
  mkState (isSpeaking m1) 0 (utteranceRef m1) (synth m1).

(** The effect's dependencies that can change while one recipe is open. *)
Definition sameDeps (a b : State) : bool :=
  Bool.eqb (isSpeaking a) (isSpeaking b)
  && (currentStepIndex a =? currentStepIndex b)%Z.

(** A render of [cur] after a render of [prev]: the effect runs when a
    dependency changed. *)
Definition commit (recipe : Recipe) (prev cur : State) : State :=
  if sameDeps prev cur then cur else narrationEffect recipe cur.

(** A handler runs on the rendered state; the component renders its
    result, and renders again when the effect changed the state. *)
Definition dispatch (recipe : Recipe) (handler : State -> State) (m : State) : State :=
  let m1 := handler m in
  let m2 := commit recipe m m1 in
  commit recipe m1 m2.

Inductive Event :=
| ClickPlayPause          (* the play/pause button *)
| ClickStop               (* the stop button *)
| ClickClose              (* the close button; the same recipe is opened again *)
| UtteranceEnd.           (* the utterance being spoken ends by itself *)

(** An utterance ends by itself only while it is spoken and the
    synthesiser is not paused; otherwise the event cannot occur and the
    state stays as it is. *)
Definition step (recipe : Recipe) (m : State) (e : Event) : State :=
  match e with
  | ClickPlayPause => dispatch recipe (handlePlayPause recipe) m
  | ClickStop => dispatch recipe handleStop m
  | ClickClose => dispatch recipe stopSpeaking m
  | UtteranceEnd =>
      match spoken (synth m), paused (synth m) with
      | Some u, false =>
          dispatch recipe
            (fun m0 => onend recipe u
               (mkState (isSpeaking m0) (currentStepIndex m0) (utteranceRef m0)
                        (complete (synth m0))))
            m
      | _, _ => m
      end
  end.

Definition runEvents (recipe : Recipe) (m : State) (es : list Event) : State :=
  fold_left (step recipe) es m.

(** The narration requests among the calls, oldest first. *)
Fixpoint requests (cs : list SynthCall) : list Utterance :=
  match cs with
  | [] => []
  | CallSpeak u :: rest => u :: requests rest
  | _ :: rest => requests rest
  end.

(** The calls made after the first [n]. *)
Definition callsAfter (n : nat) (m : State) : list SynthCall :=
  skipn n (calls (synth m)).

(** *** Ingredient highlighting *)

(** [ownedIngredients.some(ownedIng => ing.name.toLowerCase().includes(ownedIng))] *)
Definition isOwned (ownedIngredients : list string) (ing : RecipeIngredient) : bool :=
  existsb (fun ownedIng => Js.includes (Js.toLowerCase (ingName ing)) ownedIng)
          ownedIngredients.

End Modal.

(** ** What the specification calls things *)

Module Spec.

(** A string has no comma. *)
Fixpoint commaFree (s : string) : bool :=
  match s with
  | EmptyString => true
  | String c r => negb (Ascii.eqb c ",") && commaFree r
  end.

(** [segs] are the comma-separated segments of [text]: putting commas
    between them gives [text] back and no segment has a comma. *)
Definition segmentsOf (text : string) (segs : list string) : Prop :=
  segs <> [] /\ Forall (fun s => commaFree s = true) segs
  /\ Js.join "," segs = text.

Definition startsClean (s : string) : bool :=
  match s with
  | EmptyString => true
  | String c _ => negb (Js.isWhiteSpace c)
  end.

Fixpoint endsClean (s : string) : bool :=
  match s with
  | EmptyString => true
  | String c EmptyString => negb (Js.isWhiteSpace c)
  | String _ r => endsClean r
  end.

(** Trimmed: no white space at either end. *)
Definition trimmed (s : string) : bool := startsClean s && endsClean s.

(** Lowercase: no character that has a lowercase form. *)
Fixpoint lowercase (s : string) : bool :=
  match s with
  | EmptyString => true
  | String c r => negb (Js.isUpper c) && lowercase r
  end.

(** Trim, lowercase and drop the empty entries, in order. *)
Definition cleaned (segs : list string) : list string :=
  filter (fun s => negb (String.eqb s ""))
         (map (fun s => Js.toLowerCase (Js.trim s)) segs).

(** [s] textually contains [p]. *)
Definition contains (s p : string) : Prop :=
  exists before after, s = before ++ p ++ after.

(** [s] contains [p] when case is ignored. *)
Definition containsIgnoringCase (s p : string) : Prop :=
  contains (Js.toLowerCase s) (Js.toLowerCase p).

(** The six fields recipe generation fills. *)
Definition sameGenerated (a b : Recipe) : Prop :=
  name a = name b /\ difficulty a = difficulty b /\ prepTime a = prepTime b
  /\ calories a = calories b /\ ingredients a = ingredients b
  /\ instructions a = instructions b.

(** The narration states the transitions move between: nothing waits in
    the synthesiser's queue, the utterance being spoken is the one of the
    current step, and for a recipe with instructions the index stays below
    their number while the speaking flag and the paused flag are down. *)
Definition settled (recipe : Recipe) (m : Modal.State) : Prop :=
  Modal.queued (Modal.synth m) = []
  /\ (0 <= Modal.currentStepIndex m)%Z
  /\ (forall u, Modal.spoken (Modal.synth m) = Some u ->
                Modal.closedIndex u = Modal.currentStepIndex m)
  /\ ((0 < Modal.stepCount recipe)%Z ->
      (Modal.currentStepIndex m < Modal.stepCount recipe)%Z
      /\ Modal.isSpeaking m = false
      /\ Modal.paused (Modal.synth m) = false)
  /\ (Modal.stepCount recipe = 0%Z ->
      Modal.currentStepIndex m = 0%Z
      /\ Modal.spoken (Modal.synth m) = None).

(** The narration request for step [i]: its full text, read from the start. *)
Definition freshRequest (recipe : Recipe) (i : Z) : Modal.Utterance :=
  Modal.mkUtterance (Modal.textToSpeak recipe i) i.

End Spec.

(** ** The ingredient list in the specification's words

    "Split on comma, trim, lowercase, drop empty entries", written without
    any of the functions of [Js]: the characters are told apart by their code
    points, a segment is gathered character by character until the next comma,
    and white space is taken off the end by taking it off the front of the
    reversed segment. *)

Module Words.

Definition codePoint (c : ascii) : N := N_of_ascii c.

(** TAB, LF, VT, FF, CR, SPACE and NO-BREAK SPACE. *)
Definition isSpace (c : ascii) : bool :=
  existsb (N.eqb (codePoint c)) [9; 10; 11; 12; 13; 32; 160]%N.

(** A to Z, and the capital letters of Latin-1: U+00C0 to U+00D6 and
    U+00D8 to U+00DE. *)
Definition isCapital (c : ascii) : bool :=
  let n := codePoint c in
  ((65 <=? n) && (n <=? 90)
   || (192 <=? n) && (n <=? 214)
   || (216 <=? n) && (n <=? 222))%N.

(** The small letter of a capital is 32 code points further. *)
Definition small (c : ascii) : ascii :=
  if isCapital c then ascii_of_N (codePoint c + 32) else c.

Fixpoint lowered (s : string) : string :=
  match s with
  | EmptyString => EmptyString
  | String c r => String (small c) (lowered r)
  end.

Fixpoint reversed (s : string) : string :=
  match s with
  | EmptyString => EmptyString
  | String c r => reversed r ++ String c EmptyString
  end.

Fixpoint withoutLeadingSpace (s : string) : string :=
  match s with
  | EmptyString => EmptyString
  | String c r => if isSpace c then withoutLeadingSpace r else String c r
  end.

Definition stripped (s : string) : string :=
  reversed (withoutLeadingSpace (reversed (withoutLeadingSpace s))).

(** The segments of [text] after the segment [current] under way. *)
Fixpoint segmentsFrom (current text : string) : list string :=
  match text with
  | EmptyString => [current]
  | String c r =>
      if Ascii.eqb c ","
      then current :: segmentsFrom EmptyString r
      else segmentsFrom (current ++ String c EmptyString) r
  end.

Definition segments (text : string) : list string :=
  segmentsFrom EmptyString text.

(** The ingredient list of a response text. *)
Definition expected (text : string) : list string :=
  filter (fun s => negb (String.eqb s ""))
         (map (fun segment => lowered (stripped segment)) (segments text)).

Fixpoint allSpace (s : string) : bool :=
  match s with
  | EmptyString => true
  | String c r => isSpace c && allSpace r
  end.

Definition firstIsNoSpace (s : string) : bool :=
  match s with
  | EmptyString => true
  | String c _ => negb (isSpace c)
  end.

Definition noSpaceAtEnds (s : string) : bool :=
  firstIsNoSpace s && firstIsNoSpace (reversed s).

Fixpoint noCapital (s : string) : bool :=
  match s with
  | EmptyString => true
  | String c r => negb (isCapital c) && noCapital r
  end.

Fixpoint noComma (s : string) : bool :=
  match s with
  | EmptyString => true
  | String c r => negb (Ascii.eqb c ",") && noComma r
  end.

(** The segments written one after the other with a comma between. *)
Fixpoint commaJoined (l : list string) : string :=
  match l with
  | [] => EmptyString
  | [x] => x
  | x :: rest => x ++ String "," (commaJoined rest)
  end.

End Words.

(** ** The rest of the gateway: the recipe prompt *)

Module Prompt.

(** The string values of the [DietaryRestriction] enum. *)
Definition restrictionValue (f : DietaryRestriction) : string :=
  match f with
  | Vegetarian => "Vegetarian"
  | Keto => "Keto"
  | GlutenFree => "Gluten-Free"
  | Vegan => "Vegan"
  | LowCarb => "Low-Carb"
  | HighProtein => "High-Protein"
  | Pescatarian => "Pescatarian"
  end.

(** [filtersText] of [getRecipes] *)
Definition filtersText (filters : list DietaryRestriction) : string :=
  if (0 <? List.length filters)%nat then
    " The user has the following dietary restrictions: "
    ++ Js.join ", " (map restrictionValue filters) ++ "."
  else "".

Definition recipesPromptTail : string :=
  " For each recipe, provide a name, difficulty (Easy, Medium, or Hard), estimated prep time, approximate calorie count, a list of all required ingredients with quantities, and step-by-step instructions. Some of the provided ingredients might not be enough for a full recipe, so feel free to include other common ingredients as 'missing'.".

(** [prompt] of [getRecipes] *)
Definition recipesPrompt (ingredients : list string)
    (filters : list DietaryRestriction) : string :=
  "Based on the following ingredients: " ++ Js.join ", " ingredients
  ++ ", suggest 5 diverse recipes." ++ filtersText filters
  ++ recipesPromptTail.

End Prompt.

(** ** The rest of [App.tsx]: the sidebar and what is on the page *)

Module Sidebar.

Definition restrictionEqb (a b : DietaryRestriction) : bool :=
  match a, b with
  | Vegetarian, Vegetarian | Keto, Keto | GlutenFree, GlutenFree
  | Vegan, Vegan | LowCarb, LowCarb | HighProtein, HighProtein
  | Pescatarian, Pescatarian => true
  | _, _ => false
  end.

(** [Object.values(DietaryRestriction)], in the order of declaration. *)
Definition dietaryOptions : list DietaryRestriction :=
  [Vegetarian; Keto; GlutenFree; Vegan; LowCarb; HighProtein; Pescatarian].

(** [activeFilters.includes(filter)], also the checkbox's [checked]. *)
Definition isActive (activeFilters : list DietaryRestriction)
    (filter : DietaryRestriction) : bool :=
  existsb (restrictionEqb filter) activeFilters.

(** [handleToggle]: the list handed to [onFilterChange]. *)
Definition handleToggle (activeFilters : list DietaryRestriction)
    (filter : DietaryRestriction) : list DietaryRestriction :=
  if isActive activeFilters filter
  then List.filter (fun f => negb (restrictionEqb f filter)) activeFilters
  else (activeFilters ++ [filter])%list.

(** The filter list after the boxes [clicks] were clicked in turn, each
    click seeing the list the one before it left. *)
Definition toggles (activeFilters : list DietaryRestriction)
    (clicks : list DietaryRestriction) : list DietaryRestriction :=
  fold_left handleToggle clicks activeFilters.

(** A click on a checkbox: [handleToggle] and then [handleFilterChange], in
    the state the page was rendered from. *)
Definition clickFilter (st : App.State) (filter : DietaryRestriction)
    (w : App.Answers) : list App.Update :=
  App.handleFilterChange (App.identifiedIngredients st)
    (handleToggle (App.activeFilters st) filter) w.

End Sidebar.

Module Page.

(** The error paragraph of [renderContent]: [{error && ...}] on the upload
    page, [{error && appState === 'results' && ...}] on the other. *)
Definition shownError (st : App.State) : option string :=
  match App.error st with
  | None => None
  | Some message =>
      if Js.truthy message then
        match App.appState st with
        | App.Initial | App.Analyzing | App.Results => Some message
        | App.Generating => None
        end
      else None
  end.

(** The spinner is on the page. *)
Definition spinnerShown (st : App.State) : bool :=
  match App.appState st with App.Generating => true | _ => false end.

(** The file input is disabled and its label reads "Analyzing...". *)
Definition uploadDisabled (st : App.State) : bool :=
  match App.appState st with App.Analyzing => true | _ => false end.

(** The sidebar with the filter boxes is on the page. *)
Definition sidebarShown (st : App.State) : bool :=
  match App.appState st with
  | App.Initial | App.Analyzing => false
  | _ => true
  end.

Definition placeholder (recipe : Recipe) : string :=
  "https://picsum.photos/seed/" ++ name recipe ++ "/400/300".

End Page.

(** ** A session: uploads and clicks on checkboxes *)

Module Session.

Inductive Action :=
| Upload (file : App.File) (w : App.Answers)
| Click (filter : DietaryRestriction) (w : App.Answers).

(** The file input is on the page and enabled. *)
Definition canUpload (st : App.State) : bool :=
  match App.appState st with App.Initial => true | _ => false end.

(** One action, run to its end with the answers the services give it.  A
    photo can be chosen only on the upload page and a box can be clicked only
    while the sidebar is on the page; elsewhere the action cannot happen and
    the state stays. *)
Definition perform (st : App.State) (a : Action) : App.State :=
  match a with
  | Upload file w =>
      if canUpload st then App.run st (App.handleImageUpload file w) else st
  | Click filter w =>
      if Page.sidebarShown st
      then App.run st (Sidebar.clickFilter st filter w)
      else st
  end.

Definition after (actions : list Action) : App.State :=
  fold_left perform actions App.initialState.

End Session.

(** ** The form of an identified ingredient *)

(** Not empty, no white space at either end, no uppercase character and
    no comma. *)
Definition normalForm (x : string) : Prop :=
  x <> "" /\ Spec.trimmed x = true /\ Spec.lowercase x = true
  /\ Spec.commaFree x = true.

(** ** Counting and classifying narration events *)

Module Trace.

Definition isPlayClick (e : Modal.Event) : bool :=
  match e with Modal.ClickPlayPause => true | _ => false end.

Definition playClicks (es : list Modal.Event) : nat :=
  List.length (List.filter isPlayClick es).

(** A request for a step the recipe has, with that step's text. *)
Definition validRequest (recipe : Recipe) (u : Modal.Utterance) : Prop :=
  (0 <= Modal.closedIndex u < Modal.stepCount recipe)%Z
  /\ exists instruction,
       nth_error (instructions recipe) (Z.to_nat (Modal.closedIndex u))
       = Some instruction
       /\ Modal.text u
          = "Step " ++ Js.showInt (Modal.closedIndex u + 1) ++ ". " ++ instruction.

Definition isSpeakOrCancel (c : Modal.SynthCall) : bool :=
  match c with
  | Modal.CallSpeak _ | Modal.CallCancel => true
  | Modal.CallPause | Modal.CallResume => false
  end.

(** [k] times: a click on play, then the utterance it started ends. *)
Fixpoint walkthrough (k : nat) : list Modal.Event :=
  match k with
  | O => []
  | S k' => Modal.ClickPlayPause :: Modal.UtteranceEnd :: walkthrough k'
  end.

(** The requests for the steps [from], [from + 1], ... ([count] of them). *)
Definition requestsFor (recipe : Recipe) (from count : nat) : list Modal.Utterance :=
  map (fun i => Spec.freshRequest recipe (Z.of_nat i)) (seq from count).

End Trace.

(** ** Sample inputs *)

Definition sampleDataUrl : string := "data:image/jpeg;base64,AAAA".

Definition sampleFile : App.File := App.mkFile "fridge.jpg" "image/jpeg".

Definition omelette : Recipe :=
  mkRecipe "Cheese Omelette" Easy "10 minutes" 320
    [mkIngredient "Eggs" "3"; mkIngredient "Cheddar cheese" "50 g";
     mkIngredient "Butter" "1 tbsp"]
    ["Whisk the eggs."; "Melt the butter."; "Cook and fold."]
    None.

Definition pancakes : Recipe :=
  mkRecipe "Pancakes" Medium "25 minutes" 450
    [mkIngredient "Milk" "1 cup"; mkIngredient "Flour" "2 cups"]
    ["Mix the batter."; "Fry both sides."]
    None.

Definition toast : Recipe :=
  mkRecipe "Cheese Toast" Easy "5 minutes" 210
    [mkIngredient "Bread" "2 slices"; mkIngredient "Cheddar Cheese" "30 g"]
    ["Grill until golden."]
    None.

Definition pngAnswer : Call (list Gateway.Candidate) :=
  Resolves
    [Gateway.mkCandidate
       [Gateway.mkPart None (Some (Gateway.mkBlob "iVBORw0K" "image/png"))]].

(** Everything answers, except the image call of the second recipe. *)
Definition secondImageFails : App.Answers :=
  App.mkAnswers (Gateway.ReadDataUrl sampleDataUrl)
    (Resolves (Some "Eggs, MILK ,,cheddar Cheese"))
    (Resolves (Some [omelette; pancakes; toast]))
    (fun i => if (i =? 1)%nat then Rejects else pngAnswer).



(** A response whose inline image is in its second candidate. *)
Definition imageInSecondCandidate : list Gateway.Candidate :=
  [Gateway.mkCandidate [Gateway.mkPart (Some "Here is your image.") None];
   Gateway.mkCandidate
     [Gateway.mkPart None (Some (Gateway.mkBlob "iVBORw0K" "image/png"))]].

(** Every image call is rejected. *)
Definition allImagesFail : App.Answers :=
  App.mkAnswers (Gateway.ReadDataUrl sampleDataUrl)
    (Resolves (Some "Eggs, MILK ,,cheddar Cheese"))
    (Resolves (Some [omelette; pancakes; toast]))
    (fun _ => Rejects).

(** The ingredient call answers with the empty text. *)
Definition nothingIdentified : App.Answers :=
  App.mkAnswers (Gateway.ReadDataUrl sampleDataUrl)
    (Resolves (Some ""))
    (Resolves (Some [toast]))
    (fun _ => pngAnswer).

(** The recipe call answers with text that is not JSON. *)
Definition generationFails : App.Answers :=
  App.mkAnswers (Gateway.ReadDataUrl sampleDataUrl)
    (Resolves (Some "Eggs, MILK ,,cheddar Cheese"))
    (Resolves None)
    (fun _ => pngAnswer).

(** A state left by an earlier successful upload. *)
Definition afterEarlierUpload : App.State :=
  App.mkState App.Results None (Some sampleFile) ["eggs"] [toast] [] None.

(** Both steps of the pancakes narrated to their end. *)
Definition pancakesNarrated : list Modal.Event :=
  [Modal.ClickPlayPause; Modal.UtteranceEnd;
   Modal.ClickPlayPause; Modal.UtteranceEnd].

(** * Properties *)

(** ** Strings *)

Section JsFacts.
Import Js Spec.

Lemma split_not_nil sep s : split sep s <> [].
Proof.
  destruct s as [|c r]; simpl; [discriminate|].
  destruct (Ascii.eqb c sep); [discriminate|].
  destruct (split sep r); discriminate.
Qed.

Lemma join_cons sep x l :
  l <> [] -> join sep (x :: l) = x ++ sep ++ join sep l.
Proof. destruct l; [congruence | reflexivity]. Qed.

Lemma join_split sep s : join (String sep "") (split sep s) = s.
Proof.
  induction s as [|c r IH]; simpl; [reflexivity|].
  destruct (Ascii.eqb_spec c sep) as [->|Hne].
  - rewrite join_cons by apply split_not_nil. simpl. now rewrite IH.
  - pose proof (split_not_nil sep r) as Hnil.
    destruct (split sep r) as [|h t] eqn:E; [congruence|].
    destruct t as [|h' t'].
    + simpl in *. now rewrite IH.
    + change (join (String sep "") (String c h :: h' :: t'))
        with (String c (h ++ String sep "" ++ join (String sep "") (h' :: t'))).
      now rewrite <- IH.
Qed.

Lemma split_commaFree s :
  Forall (fun x => commaFree x = true) (split "," s).
Proof.
  induction s as [|c r IH]; simpl.
  - repeat constructor.
  - destruct (Ascii.eqb c ",") eqn:E.
    + constructor; [reflexivity | exact IH].
    + destruct (split "," r) as [|h t]; [repeat constructor; simpl; now rewrite E|].
      inversion IH; subst. constructor; [simpl; now rewrite E | assumption].
Qed.

Lemma split_segments text : segmentsOf text (split "," text).
Proof.
  repeat split; [apply split_not_nil | apply split_commaFree | apply join_split].
Qed.

Lemma split_commaFree_app x rest :
  commaFree x = true ->
  split "," (x ++ String "," rest) = x :: split "," rest.
Proof.
  induction x as [|c x IH]; simpl; intros H; [reflexivity|].
  apply andb_prop in H as [Hc Hx].
  destruct (Ascii.eqb c ","); [discriminate|].
  now rewrite (IH Hx).
Qed.

Lemma split_commaFree_single x :
  commaFree x = true -> split "," x = [x].
Proof.
  induction x as [|c x IH]; simpl; intros H; [reflexivity|].
  apply andb_prop in H as [Hc Hx].
  destruct (Ascii.eqb c ","); [discriminate|].
  now rewrite (IH Hx).
Qed.

(** The segments of a text are determined: they are what [split] returns. *)
Lemma segmentsOf_unique text segs :
  segmentsOf text segs -> segs = split "," text.
Proof.
  intros (Hnil & Hfree & Hjoin). subst text.
  induction segs as [|x l IH]; [congruence|].
  inversion Hfree as [|? ? Hx Hl]; subst.
  destruct l as [|y l'].
  - simpl. symmetry. now apply split_commaFree_single.
  - rewrite join_cons by discriminate.
    change (x ++ "," ++ join "," (y :: l'))
      with (x ++ String "," (join "," (y :: l'))).
    rewrite split_commaFree_app by assumption.
    f_equal. apply IH; [discriminate | assumption].
Qed.

Lemma lowerChar_whitespace c : isWhiteSpace (lowerChar c) = isWhiteSpace c.
Proof. destruct c as [[] [] [] [] [] [] [] []]; reflexivity. Qed.

Lemma lowerChar_not_upper c : isUpper (lowerChar c) = false.
Proof. destruct c as [[] [] [] [] [] [] [] []]; reflexivity. Qed.

Lemma toLowerCase_lowercase s : lowercase (toLowerCase s) = true.
Proof.
  induction s as [|c r IH]; simpl; [reflexivity|].
  now rewrite lowerChar_not_upper, IH.
Qed.

Lemma lowercase_fixed s : lowercase s = true -> toLowerCase s = s.
Proof.
  induction s as [|c r IH]; simpl; intros H; [reflexivity|].
  apply andb_prop in H as [Hc Hr]. unfold lowerChar.
  destruct (isUpper c); [discriminate|]. now rewrite IH.
Qed.

Lemma toLowerCase_idempotent s : toLowerCase (toLowerCase s) = toLowerCase s.
Proof. apply lowercase_fixed, toLowerCase_lowercase. Qed.

Lemma toLowerCase_startsClean s : startsClean (toLowerCase s) = startsClean s.
Proof. destruct s; simpl; [reflexivity | now rewrite lowerChar_whitespace]. Qed.

Lemma toLowerCase_endsClean s : endsClean (toLowerCase s) = endsClean s.
Proof.
  induction s as [|c r IH]; [reflexivity|].
  destruct r as [|d r']; simpl in *; [now rewrite lowerChar_whitespace | exact IH].
Qed.

Lemma toLowerCase_truthy s : truthy (toLowerCase s) = truthy s.
Proof. now destruct s. Qed.

Lemma trimStart_startsClean s : startsClean (trimStart s) = true.
Proof.
  induction s as [|c r IH]; simpl; [reflexivity|].
  destruct (isWhiteSpace c) eqn:E; [exact IH | simpl; now rewrite E].
Qed.

Lemma trimEnd_endsClean s : endsClean (trimEnd s) = true.
Proof.
  induction s as [|c r IH]; simpl; [reflexivity|].
  destruct (trimEnd r) as [|d r'] eqn:E.
  - destruct (isWhiteSpace c) eqn:Ec; simpl; [reflexivity | now rewrite Ec].
  - exact IH.
Qed.

Lemma trimEnd_startsClean s : startsClean s = true -> startsClean (trimEnd s) = true.
Proof.
  destruct s as [|c r]; simpl; intros H; [reflexivity|].
  destruct (trimEnd r); [|exact H].
  destruct (isWhiteSpace c) eqn:E; [discriminate | simpl; now rewrite E].
Qed.

Lemma trim_trimmed s : trimmed (trim s) = true.
Proof.
  unfold trimmed, trim.
  rewrite trimEnd_startsClean by apply trimStart_startsClean.
  now rewrite trimEnd_endsClean.
Qed.

Lemma truthy_nonempty s : truthy s = negb (String.eqb s "").
Proof. now destruct s. Qed.

Lemma parseIngredients_cleaned text :
  Gateway.parseIngredients text = cleaned (split "," text).
Proof.
  unfold Gateway.parseIngredients, cleaned.
  apply filter_ext. intros s. apply truthy_nonempty.
Qed.

(** What every string kept by [parseIngredients] looks like. *)
Lemma parseIngredients_clean text :
  Forall (fun x => x <> "" /\ trimmed x = true /\ lowercase x = true)
         (Gateway.parseIngredients text).
Proof.
  unfold Gateway.parseIngredients.
  apply Forall_forall. intros x Hx.
  apply filter_In in Hx as [Hin Htruthy].
  apply in_map_iff in Hin as (seg & <- & _).
  split; [|split].
  - intros E. rewrite E in Htruthy. discriminate.
  - unfold trimmed. rewrite toLowerCase_startsClean, toLowerCase_endsClean.
    apply trim_trimmed.
  - apply toLowerCase_lowercase.
Qed.

Lemma startsWith_spec p s :
  startsWith p s = true <-> exists after, s = p ++ after.
Proof.
  revert s. induction p as [|a p IH]; intros s; simpl.
  - split; [intros _; now exists s | reflexivity].
  - destruct s as [|b s].
    + split; [discriminate | intros [x Hx]; discriminate].
    + split.
      * intros H. apply andb_prop in H as [Hab Hp].
        apply Ascii.eqb_eq in Hab as ->.
        apply IH in Hp as [x ->]. now exists x.
      * intros [x Hx]. injection Hx as -> ->.
        rewrite Ascii.eqb_refl. simpl. apply IH. now exists x.
Qed.

(** [includes] decides textual containment. *)
Lemma includes_spec s p : includes s p = true <-> contains s p.
Proof.
  unfold contains. induction s as [|c r IH].
  - simpl. rewrite orb_false_r, startsWith_spec. split.
    + intros [x Hx]. now exists "", x.
    + intros (b & a & H). destruct b; [now exists a | discriminate].
  - change (includes (String c r) p)
      with (startsWith p (String c r) || includes r p).
    rewrite orb_true_iff, startsWith_spec, IH. split.
    + intros [[x Hx] | (b & a & H)].
      * now exists "", x.
      * exists (String c b), a. simpl. now rewrite H.
    + intros (b & a & H). destruct b as [|c' b].
      * left. now exists a.
      * right. simpl in H. injection H as _ H. now exists b, a.
Qed.

End JsFacts.

(** ** The gateway *)

Section GatewayFacts.
Import Js Spec Gateway.

Lemma analyze_resolved fileType url t :
  analyzeFridgeContents fileType (ReadDataUrl url) (Resolves t)
  = Ok match t with
       | Some text => if truthy text then parseIngredients text else []
       | None => []
       end.
Proof.
  unfold analyzeFridgeContents.
  destruct t as [text|]; simpl; [destruct (truthy text)|]; reflexivity.
Qed.

(** Whatever [analyzeFridgeContents] returns is a list of lowercase strings. *)
Lemma analyze_lowercase fileType rd vision owned :
  analyzeFridgeContents fileType rd vision = Ok owned ->
  Forall (fun o => lowercase o = true) owned.
Proof.
  destruct rd as [| |url]; try discriminate.
  destruct vision as [|t]; [discriminate|].
  rewrite analyze_resolved. intros [= <-].
  destruct t as [text|]; [|constructor].
  destruct (truthy text); [|constructor].
  eapply Forall_impl; [|apply parseIngredients_clean]. now intros o (_ & _ & H).
Qed.

(** C3, as stated, fails: a response without text, or with the empty text,
    makes [analyzeFridgeContents] return the empty list, not an error. *)
Lemma analyze_empty_text_not_failed :
  ~ failed (analyzeFridgeContents "image/jpeg" (ReadDataUrl sampleDataUrl)
              (Resolves (Some "")))
  /\ ~ failed (analyzeFridgeContents "image/jpeg" (ReadDataUrl sampleDataUrl)
                 (Resolves None)).
Proof. split; intros [m H]; discriminate H. Qed.

(** C3, amended: [analyzeFridgeContents] fails with the fixed message when
    the service call raises, whatever the file; when the file was read and the
    response has no text or the empty text it returns the empty ingredient
    list. *)
Theorem analyze_raises_or_empty :
  (forall fileType rd,
      analyzeFridgeContents fileType rd Rejects = Threw analyzeError)
  /\ (forall fileType url,
         analyzeFridgeContents fileType (ReadDataUrl url) (Resolves None) = Ok []
         /\ analyzeFridgeContents fileType (ReadDataUrl url) (Resolves (Some ""))
            = Ok []).
Proof.
  split.
  - intros fileType rd. destruct rd; reflexivity.
  - intros fileType url. split; reflexivity.
Qed.

Example analyze_sample :
  analyzeFridgeContents "image/jpeg" (ReadDataUrl sampleDataUrl)
    (Resolves (Some "Eggs, MILK ,,cheddar Cheese"))
  = Ok ["eggs"; "milk"; "cheddar cheese"].
Proof. reflexivity. Qed.

Lemma firstInlineData_app before part after blob :
  Forall (fun p => inlineData p = None) before ->
  inlineData part = Some blob ->
  firstInlineData (before ++ part :: after)%list = Some blob.
Proof.
  intros Hb Hp. induction Hb as [|p l Hnone _ IH]; simpl.
  - now rewrite Hp.
  - now rewrite Hnone.
Qed.

(** C10, amended: when the parts of the response's first candidate hold a
    part with inline data, [generateRecipeImage] returns the data of the first such
    part behind the prefix [data:image/png;base64,], whatever mime type
    that part reports. *)
Theorem generateRecipeImage_png_data_uri
    recipeName before part after others blob :
  Forall (fun p => inlineData p = None) before ->
  inlineData part = Some blob ->
  generateRecipeImage recipeName
    (Resolves (mkCandidate (before ++ part :: after)%list :: others))
  = Ok ("data:image/png;base64," ++ data blob)
  /\ startsWith "data:image/png;base64," ("data:image/png;base64," ++ data blob)
     = true.
Proof.
  intros Hb Hp. split.
  - unfold generateRecipeImage. cbn [parts].
    now rewrite (firstInlineData_app _ _ _ _ Hb Hp).
  - apply startsWith_spec. now exists (data blob).
Qed.

Lemma generateRecipeImage_png_data_uri_witness :
  generateRecipeImage "Cheese Omelette"
    (Resolves
       [mkCandidate
          ([mkPart (Some "Here is your image.") None]
           ++ mkPart None (Some (mkBlob "/9j/4AAQ" "image/jpeg"))
              :: [mkPart None (Some (mkBlob "iVBORw0K" "image/png"))])%list])
  = Ok ("data:image/png;base64," ++ "/9j/4AAQ")
  /\ startsWith "data:image/png;base64," ("data:image/png;base64," ++ "/9j/4AAQ")
     = true.
Proof.
  apply (generateRecipeImage_png_data_uri "Cheese Omelette"
           [mkPart (Some "Here is your image.") None]
           (mkPart None (Some (mkBlob "/9j/4AAQ" "image/jpeg")))
           [mkPart None (Some (mkBlob "iVBORw0K" "image/png"))]
           [] (mkBlob "/9j/4AAQ" "image/jpeg")).
  - repeat constructor.
  - reflexivity.
Defined.

(** C10, as stated, fails: a response that holds a part with inline data,
    but in its second candidate, makes [generateRecipeImage] throw; only the
    parts of the first candidate are looked at. *)
Lemma inline_part_in_later_candidate_fails :
  (exists candidate part blob,
      In candidate imageInSecondCandidate /\ In part (parts candidate)
      /\ inlineData part = Some blob)
  /\ ~ (exists url,
          generateRecipeImage "Cheese Omelette" (Resolves imageInSecondCandidate)
          = Ok url).
Proof.
  split.
  - exists (mkCandidate [mkPart None (Some (mkBlob "iVBORw0K" "image/png"))]),
      (mkPart None (Some (mkBlob "iVBORw0K" "image/png"))),
      (mkBlob "iVBORw0K" "image/png").
    simpl. tauto.
  - intros [url H]. discriminate H.
Qed.

(** Without a part holding inline data the call fails. *)
Lemma generateRecipeImage_no_inline recipeName first others :
  firstInlineData (parts first) = None ->
  generateRecipeImage recipeName (Resolves (first :: others))
  = Threw (imageError recipeName).
Proof. intros H. unfold generateRecipeImage. now rewrite H. Qed.

(** The data URI is never the empty string. *)
Lemma generateRecipeImage_truthy recipeName answer url :
  generateRecipeImage recipeName answer = Ok url -> truthy url = true.
Proof.
  destruct answer as [|[|first others]]; try discriminate.
  unfold generateRecipeImage.
  destruct (firstInlineData (parts first)); [|discriminate].
  now intros [= <-].
Qed.


End GatewayFacts.

(** ** Ingredient highlighting *)

Section OwnedFacts.
Import Js Spec Gateway Modal.

(** With lowercase owned strings, [isOwned] is containment ignoring case. *)
Lemma isOwned_lowercase owned ing :
  Forall (fun o => lowercase o = true) owned ->
  isOwned owned ing = true
  <-> exists o, In o owned /\ containsIgnoringCase (ingName ing) o.
Proof.
  intros Hlow. unfold isOwned, containsIgnoringCase.
  rewrite existsb_exists. rewrite Forall_forall in Hlow.
  split; intros (o & Hin & H); exists o; (split; [exact Hin|]).
  - rewrite (lowercase_fixed o (Hlow o Hin)). now apply includes_spec.
  - rewrite (lowercase_fixed o (Hlow o Hin)) in H. now apply includes_spec.
Qed.

(** In terms of the response text: the ingredient is owned exactly when its
    name contains, case ignored, the trimmed form of a segment of the text
    that is not blank, however the service cased it. *)
Lemma owned_from_response_text text ing :
  isOwned (parseIngredients text) ing = true
  <-> exists seg, In seg (split "," text) /\ trim seg <> ""
                  /\ containsIgnoringCase (ingName ing) (trim seg).
Proof.
  rewrite isOwned_lowercase.
  - unfold parseIngredients, containsIgnoringCase. split.
    + intros (o & Hin & H). apply filter_In in Hin as [Hin Ht].
      apply in_map_iff in Hin as (seg & <- & Hseg).
      exists seg. rewrite toLowerCase_truthy in Ht.
      rewrite toLowerCase_idempotent in H.
      repeat split; try assumption.
      intros E. rewrite E in Ht. discriminate.
    + intros (seg & Hseg & Hne & H).
      exists (toLowerCase (trim seg)). split.
      * apply filter_In. split.
        -- apply in_map_iff. now exists seg.
        -- rewrite toLowerCase_truthy. destruct (trim seg); [congruence | reflexivity].
      * now rewrite toLowerCase_idempotent.
  - eapply Forall_impl; [|apply parseIngredients_clean]. now intros o (_ & _ & H).
Qed.

Lemma parseIngredients_empty : parseIngredients "" = [].
Proof. reflexivity. Qed.

(** C8: with the identified ingredients that [analyzeFridgeContents]
    returned as the owned list, a recipe ingredient is shown as owned exactly
    when its name contains one of them, case ignored on both sides; and in
    terms of the service's text, whatever its casing, exactly when the name
    contains, case ignored, one of the text's trimmed non-blank segments. *)
Theorem owned_iff_contains_ignoring_case fileType rd vision owned ing :
  analyzeFridgeContents fileType rd vision = Ok owned ->
  (isOwned owned ing = true
   <-> exists o, In o owned /\ containsIgnoringCase (ingName ing) o)
  /\ (forall text,
         vision = Resolves (Some text) ->
         isOwned owned ing = true
         <-> exists seg, In seg (split "," text) /\ trim seg <> ""
                         /\ containsIgnoringCase (ingName ing) (trim seg)).
Proof.
  intros H. split.
  - apply isOwned_lowercase. exact (analyze_lowercase _ _ _ _ H).
  - intros text ->.
    destruct rd as [| |url]; try discriminate.
    rewrite analyze_resolved in H. injection H as <-.
    rewrite <- owned_from_response_text.
    destruct text; [rewrite parseIngredients_empty|]; reflexivity.
Qed.

Lemma owned_iff_contains_ignoring_case_witness :
  (isOwned ["eggs"; "milk"; "cheddar cheese"] (mkIngredient "Whole MILK" "1 cup")
   = true
   <-> exists o, In o ["eggs"; "milk"; "cheddar cheese"]
                 /\ containsIgnoringCase "Whole MILK" o)
  /\ (forall text,
         Resolves (Some "Eggs, MILK ,,cheddar Cheese") = Resolves (Some text) ->
         isOwned ["eggs"; "milk"; "cheddar cheese"]
                 (mkIngredient "Whole MILK" "1 cup") = true
         <-> exists seg, In seg (split "," text) /\ trim seg <> ""
                         /\ containsIgnoringCase "Whole MILK" (trim seg)).
Proof.
  apply (owned_iff_contains_ignoring_case "image/jpeg"
           (ReadDataUrl sampleDataUrl)
           (Resolves (Some "Eggs, MILK ,,cheddar Cheese"))
           ["eggs"; "milk"; "cheddar cheese"]
           (mkIngredient "Whole MILK" "1 cup")).
  reflexivity.
Defined.

Example owned_sample :
  isOwned ["eggs"; "milk"; "cheddar cheese"] (mkIngredient "Whole MILK" "1 cup")
  = true
  /\ isOwned ["eggs"; "milk"; "cheddar cheese"] (mkIngredient "Butter" "1 tbsp")
     = false.
Proof. split; reflexivity. Qed.

(** The comparison lowercases the ingredient's name only: an owned string
    with a capital matches nothing. *)
Example owned_string_with_capital :
  isOwned ["Milk"] (mkIngredient "milk" "1 cup") = false.
Proof. reflexivity. Qed.

End OwnedFacts.

(** ** The pipeline *)

Section PipelineFacts.
Import Js Spec Gateway App.

Lemma attachImage_sameGenerated recipe answer :
  sameGenerated recipe (attachImage recipe answer).
Proof.
  unfold attachImage, sameGenerated.
  destruct (generateRecipeImage (name recipe) answer); simpl; repeat split.
Qed.

Lemma attachFrom_sameGenerated synth generated :
  forall i, Forall2 sameGenerated generated (attachFrom synth i generated).
Proof.
  induction generated as [|recipe rest IH]; intros i; simpl; constructor.
  - apply attachImage_sameGenerated.
  - apply IH.
Qed.

Lemma attachFrom_length synth generated :
  forall i, List.length (attachFrom synth i generated) = List.length generated.
Proof. induction generated; intros i; simpl; [reflexivity | now rewrite IHgenerated]. Qed.

Lemma attachFrom_nth synth generated :
  forall i n,
    nth_error (attachFrom synth i generated) n
    = option_map (fun recipe => attachImage recipe (synth (i + n)%nat))
                 (nth_error generated n).
Proof.
  induction generated as [|recipe rest IH]; intros i n.
  - now destruct n.
  - destruct n as [|n]; simpl.
    + now rewrite Nat.add_0_r.
    + rewrite IH. now rewrite Nat.add_succ_r.
Qed.

(** A recipe generated without an image lacks one afterwards exactly when
    its image call failed. *)
Lemma attachImage_lacks recipe answer :
  imageUrl recipe = None ->
  imageUrl (attachImage recipe answer) = None
  <-> failed (generateRecipeImage (name recipe) answer).
Proof.
  intros Hnone. unfold attachImage, failed.
  destruct (generateRecipeImage (name recipe) answer) as [url|m]; simpl.
  - split; [discriminate | intros [m' H]; discriminate].
  - split; [intros _; now exists m | intros _; exact Hnone].
Qed.

Lemma filter_all {A} (p : A -> bool) l :
  (forall x, In x l -> p x = true) -> filter p l = l.
Proof.
  induction l as [|x t IH]; intros H; simpl; [reflexivity|].
  rewrite (H x (or_introl eq_refl)). f_equal. apply IH.
  intros y Hy. apply H. now right.
Qed.



(** What a successful upload leaves in the state. *)
Lemma handleImageUpload_success st file w ingredients generated :
  analyzeFridgeContents (fileType file) (reading w) (vision w) = Ok ingredients ->
  getRecipes (generation w) = Ok generated ->
  run st (handleImageUpload file w)
  = mkState Results None (Some file) ingredients
            (recipesWithImages (synthesis w) generated)
            (activeFilters st) (selectedRecipe st).
Proof.
  intros Ha Hg. unfold handleImageUpload. now rewrite Ha, Hg.
Qed.

Lemma handleFilterChange_success st identified newFilters w generated :
  identified <> [] ->
  getRecipes (generation w) = Ok generated ->
  run st (handleFilterChange identified newFilters w)
  = mkState Results None (imageFile st) (identifiedIngredients st)
            (recipesWithImages (synthesis w) generated)
            newFilters (selectedRecipe st).
Proof.
  intros Hne Hg. unfold handleFilterChange.
  destruct identified; [congruence|]. simpl. now rewrite Hg.
Qed.




(** C9: the recipes a handler stores have, position by position, the name,
    difficulty, preparation time, calories, ingredients and instructions of
    the generated ones, whatever the image calls answered. *)
Theorem image_attachment_keeps_generated_fields st file identified newFilters w generated :
  getRecipes (generation w) = Ok generated ->
  Forall2 sameGenerated generated (recipesWithImages (synthesis w) generated)
  /\ (forall ingredients,
         analyzeFridgeContents (fileType file) (reading w) (vision w)
         = Ok ingredients ->
         Forall2 sameGenerated generated
                 (recipes (run st (handleImageUpload file w))))
  /\ (identified <> [] ->
      Forall2 sameGenerated generated
              (recipes (run st (handleFilterChange identified newFilters w)))).
Proof.
  intros Hg. split; [apply attachFrom_sameGenerated|]. split.
  - intros ingredients Ha.
    rewrite (handleImageUpload_success _ _ _ _ _ Ha Hg).
    apply attachFrom_sameGenerated.
  - intros Hne.
    rewrite (handleFilterChange_success _ _ _ _ _ Hne Hg).
    apply attachFrom_sameGenerated.
Qed.



Example one_image_failure_sample :
  map cardImage
      (recipes (run initialState (handleImageUpload sampleFile secondImageFails)))
  = ["data:image/png;base64,iVBORw0K";
     "https://picsum.photos/seed/Pancakes/400/300";
     "data:image/png;base64,iVBORw0K"].
Proof. reflexivity. Qed.


Lemma image_attachment_keeps_generated_fields_witness :
  Forall2 sameGenerated [omelette; pancakes; toast]
          (recipesWithImages (synthesis secondImageFails)
                             [omelette; pancakes; toast])
  /\ (forall ingredients,
         analyzeFridgeContents (fileType sampleFile) (reading secondImageFails)
                               (vision secondImageFails)
         = Ok ingredients ->
         Forall2 sameGenerated [omelette; pancakes; toast]
                 (recipes (run afterEarlierUpload
                               (handleImageUpload sampleFile secondImageFails))))
  /\ (["eggs"] <> [] ->
      Forall2 sameGenerated [omelette; pancakes; toast]
              (recipes (run afterEarlierUpload
                            (handleFilterChange ["eggs"] [Vegetarian]
                                                secondImageFails)))).
Proof.
  apply (image_attachment_keeps_generated_fields afterEarlierUpload sampleFile
           ["eggs"] [Vegetarian] secondImageFails [omelette; pancakes; toast]).
  reflexivity.
Defined.

End PipelineFacts.

(** ** Narration *)

Section NarrationFacts.
Import Js Spec Modal.

Lemma stepCount_nonneg recipe : (0 <= stepCount recipe)%Z.
Proof. unfold stepCount. lia. Qed.

Lemma initial_settled recipe : settled recipe initial.
Proof.
  unfold settled, initial; simpl.
  repeat split; try reflexivity; try lia; discriminate.
Qed.

Ltac unfold_step :=
  cbv beta iota zeta delta
    [step dispatch commit sameDeps narrationEffect handlePlayPause handleStop
     stopSpeaking onend speak cancel speaking pause resume begin complete
     isSpeaking currentStepIndex utteranceRef synth spoken queued paused calls
     Bool.eqb andb].

Ltac unfold_step_in H :=
  cbv beta iota zeta delta
    [step dispatch commit sameDeps narrationEffect handlePlayPause handleStop
     stopSpeaking onend speak cancel speaking pause resume begin complete
     isSpeaking currentStepIndex utteranceRef synth spoken queued paused calls
     Bool.eqb andb] in H.

Ltac close_settled :=
  simpl in *; repeat split; intros; subst; simpl in *;
  repeat match goal with
    | H : Some _ = Some _ |- _ => injection H as H; subst
    end;
  simpl; try discriminate; try congruence; try lia; auto.

Ltac conclude H m :=
  rewrite ?Z.eqb_refl in H; cbn in H; subst m; unfold settled; close_settled.

Lemma step_settled recipe m e :
  settled recipe m -> settled recipe (step recipe m e).
Proof.
  pose proof (stepCount_nonneg recipe) as Hn.
  destruct m as [sp idx ref [spk q pz cs]].
  unfold settled at 1; simpl. intros (Hq & H0 & Hsp & Hpos & Hzero). subst q.
  match goal with |- settled _ ?t => remember t as m' eqn:Hm' end.
  destruct (Z.eq_dec (stepCount recipe) 0) as [Ez|Ez].
  - (* no instructions: the effect never speaks *)
    destruct (Hzero Ez) as [-> ->]. clear Hsp Hpos Hzero.
    destruct e, sp, pz; unfold_step_in Hm'; rewrite ?Ez in Hm';
      conclude Hm' m'.
  - destruct Hpos as (Hlt & -> & ->); [lia|]. clear Hzero.
    destruct e; unfold_step_in Hm'.
    + (* play: the effect speaks the current step and lowers the flag *)
      destruct (idx >=? stepCount recipe)%Z eqn:Ege; [lia|].
      destruct (idx <? stepCount recipe)%Z eqn:Elt; [|lia].
      destruct spk; conclude Hm' m'.
    + (* stop *)
      destruct spk; destruct (idx =? 0)%Z eqn:E0; conclude Hm' m'.
    + (* close *)
      destruct spk; conclude Hm' m'.
    + (* the spoken utterance ends: its handler closed over the current index *)
      destruct spk as [u|]; [|conclude Hm' m'].
      specialize (Hsp u eq_refl).
      destruct (closedIndex u <? stepCount recipe - 1)%Z eqn:El.
      * destruct (idx =? idx + 1)%Z eqn:E1; [lia|]. conclude Hm' m'.
      * conclude Hm' m'.
Qed.

Lemma runEvents_settled recipe es :
  forall m, settled recipe m -> settled recipe (runEvents recipe m es).
Proof.
  induction es as [|e es IH]; intros m Hm; simpl; [exact Hm|].
  apply IH, step_settled, Hm.
Qed.

(** C4: from the initial state, after any sequence of clicks on play/pause
    and stop and of utterances ending, [currentStepIndex] lies between 0 and
    the number of instructions. *)
Theorem step_index_within_bounds recipe es :
  (0 <= currentStepIndex (runEvents recipe initial es) <= stepCount recipe)%Z.
Proof.
  pose proof (stepCount_nonneg recipe) as Hn.
  destruct (runEvents_settled recipe es initial (initial_settled recipe))
    as (_ & H0 & _ & Hpos & Hzero).
  destruct (Z.eq_dec (stepCount recipe) 0) as [Ez|Ez].
  - destruct (Hzero Ez) as [-> _]. lia.
  - destruct Hpos as (Hlt & _); lia.
Qed.

(** With at least one instruction the index never reaches their number, so
    the test [currentStepIndex >= recipe.instructions.length] of
    [handlePlayPause] never holds; and the effect's call of [stopSpeaking]
    leaves the speaking flag down after every transition. *)
Lemma step_index_below_count recipe es :
  (0 < stepCount recipe)%Z ->
  let m := runEvents recipe initial es in
  (currentStepIndex m < stepCount recipe)%Z /\ isSpeaking m = false.
Proof.
  intros Hpos.
  destruct (runEvents_settled recipe es initial (initial_settled recipe))
    as (_ & _ & _ & H & _).
  destruct (H Hpos) as (Hlt & Hsp & _). now split.
Qed.

(** After the last step's utterance ended, the index is still the last
    step's; a play action narrates that step again. *)
Lemma play_after_last_step recipe m :
  (0 < stepCount recipe)%Z ->
  isSpeaking m = false ->
  currentStepIndex m = (stepCount recipe - 1)%Z ->
  spoken (synth m) = None -> queued (synth m) = [] -> paused (synth m) = false ->
  let m' := step recipe m ClickPlayPause in
  currentStepIndex m' = (stepCount recipe - 1)%Z
  /\ spoken (synth m') = Some (freshRequest recipe (stepCount recipe - 1)).
Proof.
  destruct m as [sp idx ref [spk q pz cs]]. simpl.
  intros Hpos -> -> -> -> ->. unfold_step.
  destruct (stepCount recipe - 1 >=? stepCount recipe)%Z eqn:E; [lia|].
  destruct (stepCount recipe - 1 <? stepCount recipe)%Z eqn:E'; [|lia].
  cbn. split; reflexivity.
Qed.

(** C5 fails on the code: with both steps of a two-step recipe narrated to
    their end, the index is 1, not 2, and a play action narrates step 2 again
    instead of restarting at step 1. *)
Theorem play_after_completion_repeats_last_step :
  let completed := runEvents pancakes initial pancakesNarrated in
  let replayed := step pancakes completed ClickPlayPause in
  requests (calls (synth completed))
  = [freshRequest pancakes 0; freshRequest pancakes 1]
  /\ spoken (synth completed) = None
  /\ isSpeaking completed = false
  /\ currentStepIndex completed = 1%Z
  /\ currentStepIndex replayed = 1%Z
  /\ requests (callsAfter (List.length (calls (synth completed))) replayed)
     = [mkUtterance "Step 2. Fry both sides." 1].
Proof. vm_compute. repeat split. Qed.

Lemma skipn_length_app {A} (l r : list A) : skipn (List.length l) (l ++ r)%list = r.
Proof. induction l; simpl; [reflexivity | assumption]. Qed.


End NarrationFacts.

(** * Further properties of the code *)

(** ** The gateway: file reading, errors, the prompt *)

Section GatewayMore.
Import Js Spec Gateway Prompt.

Lemma str_app_assoc (a b c : string) : (a ++ b) ++ c = a ++ (b ++ c).
Proof. induction a as [|x a IH]; simpl; [reflexivity | now rewrite IH]. Qed.

Lemma str_app_empty_r (a : string) : a ++ "" = a.
Proof. induction a as [|x a IH]; simpl; [reflexivity | now rewrite IH]. Qed.

Lemma commaFree_app a b :
  commaFree (a ++ b) = commaFree a && commaFree b.
Proof.
  induction a as [|x a IH]; simpl; [reflexivity|].
  now rewrite IH, andb_assoc.
Qed.

(** The generative part built from a data URL
    [header,payload] carries exactly the payload, with the file's type; a
    read result without a comma gives a part whose data is [undefined]. *)
Theorem fileToGenerativePart_payload fileType header payload :
  commaFree header = true ->
  commaFree payload = true ->
  fileToGenerativePart fileType (ReadDataUrl (header ++ "," ++ payload))
  = Ok (Some payload, fileType)
  /\ fileToGenerativePart fileType (ReadDataUrl header) = Ok (None, fileType).
Proof.
  intros Hh Hp. unfold fileToGenerativePart. split.
  - change (header ++ "," ++ payload) with (header ++ String "," payload).
    rewrite split_commaFree_app by assumption.
    now rewrite split_commaFree_single.
  - now rewrite split_commaFree_single.
Qed.

Lemma fileToGenerativePart_payload_witness :
  fileToGenerativePart "image/jpeg"
    (ReadDataUrl ("data:image/jpeg;base64" ++ "," ++ "AAAA"))
  = Ok (Some "AAAA", "image/jpeg")
  /\ fileToGenerativePart "image/jpeg" (ReadDataUrl "data:image/jpeg;base64")
     = Ok (None, "image/jpeg").
Proof.
  apply (fileToGenerativePart_payload "image/jpeg" "data:image/jpeg;base64" "AAAA");
    reflexivity.
Defined.

(** [analyzeFridgeContents] fails exactly when the file could not be read
    as a string or the service call rejected, and then always with the one
    fixed message, whatever the original error said. *)
Theorem analyze_fails_iff fileType rd vision :
  (failed (analyzeFridgeContents fileType rd vision)
   <-> (forall url, rd <> ReadDataUrl url) \/ vision = Rejects)
  /\ (forall m, analyzeFridgeContents fileType rd vision = Threw m ->
                m = analyzeError).
Proof.
  split.
  - split.
    + intros [m H]. destruct rd as [| |url].
      * left; discriminate.
      * left; discriminate.
      * destruct vision as [|t]; [now right|].
        rewrite analyze_resolved in H. discriminate.
    + intros [H | ->].
      * destruct rd as [| |url]; [now exists analyzeError ..|].
        now destruct (H url).
      * destruct rd; now exists analyzeError.
  - intros m H. destruct rd as [| |url]; try (now injection H as <-).
    destruct vision as [|t]; [now injection H as <-|].
    rewrite analyze_resolved in H. discriminate.
Qed.

Lemma lowerChar_comma c : Ascii.eqb (lowerChar c) "," = Ascii.eqb c ",".
Proof. destruct c as [[] [] [] [] [] [] [] []]; reflexivity. Qed.

Lemma toLowerCase_commaFree s : commaFree (toLowerCase s) = commaFree s.
Proof.
  induction s as [|c r IH]; simpl; [reflexivity|].
  now rewrite lowerChar_comma, IH.
Qed.

Lemma trimStart_commaFree s : commaFree s = true -> commaFree (trimStart s) = true.
Proof.
  induction s as [|c r IH]; simpl; intros H; [reflexivity|].
  destruct (isWhiteSpace c); [|exact H].
  apply andb_prop in H as [_ H]. now apply IH.
Qed.

Lemma trimEnd_commaFree s : commaFree s = true -> commaFree (trimEnd s) = true.
Proof.
  induction s as [|c r IH]; simpl; intros H; [reflexivity|].
  apply andb_prop in H as [Hc Hr]. specialize (IH Hr).
  destruct (trimEnd r) as [|d r'].
  - destruct (isWhiteSpace c); simpl; [reflexivity | now rewrite Hc].
  - simpl in *. now rewrite Hc, IH.
Qed.

Lemma trimStart_fixed s : startsClean s = true -> trimStart s = s.
Proof.
  destruct s as [|c r]; simpl; [reflexivity|].
  now destruct (isWhiteSpace c).
Qed.

Lemma trimEnd_fixed s : endsClean s = true -> trimEnd s = s.
Proof.
  induction s as [|c r IH]; [reflexivity|].
  destruct r as [|d r'].
  - simpl. now destruct (isWhiteSpace c).
  - intros H. change (endsClean (String d r') = true) in H.
    change (trimEnd (String c (String d r')))
      with (match trimEnd (String d r') with
            | EmptyString =>
                if isWhiteSpace c then EmptyString else String c EmptyString
            | r0 => String c r0
            end).
    now rewrite (IH H).
Qed.

Lemma trim_fixed s : trimmed s = true -> trim s = s.
Proof.
  unfold trimmed, trim. intros H. apply andb_prop in H as [Hs He].
  rewrite trimStart_fixed by assumption. now apply trimEnd_fixed.
Qed.

Lemma trim_after_space s : trim (" " ++ s) = trim s.
Proof. reflexivity. Qed.

(** The strings [parseIngredients] keeps have no comma either. *)
Lemma parseIngredients_commaFree text :
  Forall (fun x => commaFree x = true) (parseIngredients text).
Proof.
  unfold parseIngredients. apply Forall_forall. intros x Hx.
  apply filter_In in Hx as [Hin _].
  apply in_map_iff in Hin as (seg & <- & Hseg).
  rewrite toLowerCase_commaFree. unfold trim.
  apply trimEnd_commaFree, trimStart_commaFree.
  pose proof (split_commaFree text) as H. rewrite Forall_forall in H. now apply H.
Qed.

Lemma normalise_joined l :
  l <> [] -> Forall normalForm l ->
  forall pad, pad = "" \/ pad = " " ->
  map (fun item => toLowerCase (trim item)) (split "," (pad ++ join ", " l)) = l.
Proof.
  induction l as [|x t IH]; intros Hnil Hall pad Hpad; [congruence|].
  inversion Hall as [|? ? (Hne & Htrim & Hlow & Hfree) Ht]; subst.
  assert (Hnorm : toLowerCase (trim (pad ++ x)) = x).
  { destruct Hpad as [-> | ->]; [simpl (_ ++ _) | rewrite trim_after_space];
      rewrite trim_fixed by assumption; now apply lowercase_fixed. }
  assert (Hpadfree : commaFree (pad ++ x) = true).
  { rewrite commaFree_app, Hfree. now destruct Hpad as [-> | ->]. }
  destruct t as [|y t'].
  - simpl join. rewrite split_commaFree_single by assumption.
    simpl. now rewrite Hnorm.
  - rewrite join_cons by discriminate.
    replace (pad ++ x ++ ", " ++ join ", " (y :: t'))
      with ((pad ++ x) ++ String "," (" " ++ join ", " (y :: t')))
      by (now rewrite str_app_assoc).
    rewrite split_commaFree_app by assumption.
    simpl map. rewrite Hnorm. f_equal.
    exact (IH ltac:(discriminate) Ht " " (or_intror eq_refl)).
Qed.

(** What [parseIngredients] returns is in normal form: joined with [", "],
    as [getRecipes] writes the list into its prompt, and parsed again, it
    comes back unchanged. *)
Theorem parseIngredients_join_roundtrip text :
  parseIngredients (join ", " (parseIngredients text)) = parseIngredients text.
Proof.
  set (l := parseIngredients text).
  assert (Hall : Forall normalForm l).
  { pose proof (parseIngredients_clean text) as Hc.
    pose proof (parseIngredients_commaFree text) as Hf.
    fold l in Hc, Hf. rewrite Forall_forall in *.
    intros x Hx. destruct (Hc x Hx) as (H1 & H2 & H3).
    repeat split; auto. }
  destruct l as [|x t] eqn:El; [reflexivity|].
  unfold parseIngredients at 1.
  pose proof (normalise_joined (x :: t) ltac:(discriminate) Hall ""
                (or_introl eq_refl)) as Hn.
  change ("" ++ join ", " (x :: t)) with (join ", " (x :: t)) in Hn.
  rewrite Hn.
  apply filter_all. intros y Hy. rewrite Forall_forall in Hall.
  destruct (Hall y Hy) as (Hne & _). destruct y; [congruence | reflexivity].
Qed.

End GatewayMore.

(** ** The ingredient list against the specification's words *)

Section WordsFacts.
Import Js Spec Gateway.

Lemma isSpace_same c : isWhiteSpace c = Words.isSpace c.
Proof. destruct c as [[] [] [] [] [] [] [] []]; reflexivity. Qed.

Lemma isCapital_same c : isUpper c = Words.isCapital c.
Proof. destruct c as [[] [] [] [] [] [] [] []]; reflexivity. Qed.

Lemma small_same c : lowerChar c = Words.small c.
Proof. destruct c as [[] [] [] [] [] [] [] []]; reflexivity. Qed.

Lemma lowered_same s : toLowerCase s = Words.lowered s.
Proof. induction s as [|c r IH]; simpl; [reflexivity | now rewrite small_same, IH]. Qed.

Lemma leading_same s : trimStart s = Words.withoutLeadingSpace s.
Proof.
  induction s as [|c r IH]; simpl; [reflexivity|].
  rewrite isSpace_same, IH. reflexivity.
Qed.

Lemma reversed_app a b :
  Words.reversed (a ++ b) = Words.reversed b ++ Words.reversed a.
Proof.
  induction a as [|c a IH]; simpl.
  - now rewrite str_app_empty_r.
  - now rewrite IH, str_app_assoc.
Qed.

Lemma leading_app x y :
  Words.withoutLeadingSpace (x ++ y)
  = match Words.withoutLeadingSpace x with
    | EmptyString => Words.withoutLeadingSpace y
    | z => z ++ y
    end.
Proof.
  induction x as [|c x IH]; simpl; [reflexivity|].
  destruct (Words.isSpace c); [exact IH | reflexivity].
Qed.

Lemma trailing_same s :
  trimEnd s = Words.reversed (Words.withoutLeadingSpace (Words.reversed s)).
Proof.
  induction s as [|c r IH]; [reflexivity|].
  cbn [trimEnd Words.reversed]. rewrite leading_app, IH.
  destruct (Words.withoutLeadingSpace (Words.reversed r)) as [|a z].
  - rewrite isSpace_same. cbn [Words.reversed Words.withoutLeadingSpace].
    destruct (Words.isSpace c); reflexivity.
  - rewrite reversed_app. cbn [Words.reversed append].
    destruct (Words.reversed z ++ String a "") eqn:E; [|reflexivity].
    destruct (Words.reversed z); discriminate.
Qed.

Lemma stripped_same s : trim s = Words.stripped s.
Proof. unfold trim, Words.stripped. now rewrite trailing_same, leading_same. Qed.

Lemma segmentsFrom_split s :
  forall current,
    Words.segmentsFrom current s
    = match split "," s with
      | h :: t => (current ++ h) :: t
      | [] => [current]
      end.
Proof.
  induction s as [|c r IH]; intros current; simpl.
  - now rewrite str_app_empty_r.
  - destruct (Ascii.eqb c ",").
    + rewrite str_app_empty_r, IH. f_equal.
      pose proof (split_not_nil "," r) as Hnil.
      destruct (split "," r); [congruence | reflexivity].
    + rewrite IH. pose proof (split_not_nil "," r) as Hnil.
      destruct (split "," r) as [|h t]; [congruence|].
      now rewrite str_app_assoc.
Qed.

Lemma segments_same s : split "," s = Words.segments s.
Proof.
  unfold Words.segments. rewrite segmentsFrom_split.
  pose proof (split_not_nil "," s) as Hnil.
  destruct (split "," s); [congruence | reflexivity].
Qed.

Lemma expected_same text : parseIngredients text = Words.expected text.
Proof.
  unfold parseIngredients, Words.expected. rewrite segments_same.
  erewrite map_ext by (intros seg; rewrite stripped_same, lowered_same; reflexivity).
  apply filter_ext. intros x. apply truthy_nonempty.
Qed.

Lemma noCapital_same x : lowercase x = Words.noCapital x.
Proof.
  induction x as [|c r IH]; simpl; [reflexivity | now rewrite isCapital_same, IH].
Qed.

Lemma first_same x : startsClean x = Words.firstIsNoSpace x.
Proof. destruct x; simpl; [reflexivity | now rewrite isSpace_same]. Qed.

Lemma first_app a b :
  Words.firstIsNoSpace (a ++ b)
  = match a with
    | EmptyString => Words.firstIsNoSpace b
    | _ => Words.firstIsNoSpace a
    end.
Proof. now destruct a. Qed.

Lemma ends_same x : endsClean x = Words.firstIsNoSpace (Words.reversed x).
Proof.
  induction x as [|c r IH]; [reflexivity|].
  destruct r as [|d r'].
  - simpl. now rewrite isSpace_same.
  - change (endsClean (String c (String d r'))) with (endsClean (String d r')).
    rewrite IH. cbn [Words.reversed]. rewrite (first_app (_ ++ String d "")).
    destruct (Words.reversed r' ++ String d "") eqn:E; [|reflexivity].
    destruct (Words.reversed r'); discriminate.
Qed.

Lemma noComma_same x : commaFree x = Words.noComma x.
Proof. induction x as [|c r IH]; simpl; [reflexivity | now rewrite IH]. Qed.

Lemma commaJoined_same l : join "," l = Words.commaJoined l.
Proof.
  induction l as [|x t IH]; [reflexivity|].
  destruct t as [|y t']; [reflexivity|].
  rewrite join_cons by discriminate.
  change (Words.commaJoined (x :: y :: t'))
    with (x ++ String "," (Words.commaJoined (y :: t'))).
  now rewrite <- IH.
Qed.

Lemma leading_decomposed s :
  exists before, s = before ++ trimStart s /\ Words.allSpace before = true.
Proof.
  induction s as [|c r (before & Hr & Hb)]; simpl.
  - now exists "".
  - destruct (isWhiteSpace c) eqn:E.
    + exists (String c before). simpl. rewrite <- Hr.
      rewrite <- isSpace_same, E. now split.
    + now exists "".
Qed.

Lemma trailing_decomposed s :
  exists after, s = trimEnd s ++ after /\ Words.allSpace after = true.
Proof.
  induction s as [|c r (after & Hr & Ha)]; simpl.
  - now exists "".
  - destruct (trimEnd r) as [|d r'] eqn:E.
    + simpl in Hr. subst after.
      destruct (isWhiteSpace c) eqn:Ec.
      * exists (String c r). simpl. rewrite <- isSpace_same, Ec. now split.
      * exists r. now split.
    + exists after. split; [|exact Ha].
      change (String c (String d r') ++ after)
        with (String c (String d r' ++ after)).
      now rewrite <- Hr.
Qed.

(** The spec's trimming takes nothing but white space off the two ends. *)
Lemma stripped_decomposed seg :
  exists before after,
    seg = before ++ Words.stripped seg ++ after
    /\ Words.allSpace before = true /\ Words.allSpace after = true.
Proof.
  rewrite <- stripped_same. unfold trim.
  destruct (leading_decomposed seg) as (before & Hb & Hbs).
  destruct (trailing_decomposed (trimStart seg)) as (after & Ha & Has).
  exists before, after. repeat split; try assumption.
  now rewrite <- Ha.
Qed.

(** C7: for a non-empty response text, [analyzeFridgeContents] returns the
    list the specification describes: the comma-separated segments of the
    text (with commas between them they give the text back, and none has a
    comma), each with the white space taken off its two ends and nothing else,
    then lowercased, the empty ones dropped, in order.  Every string of the
    list is non-empty, has no white space at either end and no capital. *)
Theorem ingredients_are_the_cleaned_segments fileType url text :
  text <> "" ->
  analyzeFridgeContents fileType (ReadDataUrl url) (Resolves (Some text))
  = Ok (Words.expected text)
  /\ (Words.commaJoined (Words.segments text) = text
      /\ Forall (fun segment => Words.noComma segment = true)
                (Words.segments text))
  /\ Forall (fun segment =>
               exists before after,
                 segment = before ++ Words.stripped segment ++ after
                 /\ Words.allSpace before = true
                 /\ Words.allSpace after = true)
            (Words.segments text)
  /\ Forall (fun x => x <> "" /\ Words.noSpaceAtEnds x = true
                      /\ Words.noCapital x = true)
            (Words.expected text).
Proof.
  intros Hne. split; [|split; [|split]].
  - rewrite analyze_resolved, <- expected_same.
    destruct text; [congruence | reflexivity].
  - rewrite <- segments_same, <- commaJoined_same. split.
    + apply (join_split "," text).
    + eapply Forall_impl; [|apply split_commaFree].
      intros seg H. now rewrite <- noComma_same.
  - apply Forall_forall. intros seg _. apply stripped_decomposed.
  - rewrite <- expected_same.
    eapply Forall_impl; [|apply parseIngredients_clean].
    intros x (Hx & Ht & Hl). split; [exact Hx|]. split.
    + unfold Words.noSpaceAtEnds. rewrite <- first_same, <- ends_same. exact Ht.
    + now rewrite <- noCapital_same.
Qed.

Lemma ingredients_are_the_cleaned_segments_witness :
  analyzeFridgeContents "image/jpeg" (ReadDataUrl sampleDataUrl)
    (Resolves (Some "Eggs, MILK ,,cheddar Cheese"))
  = Ok ["eggs"; "milk"; "cheddar cheese"]
  /\ (Words.commaJoined ["Eggs"; " MILK "; ""; "cheddar Cheese"]
      = "Eggs, MILK ,,cheddar Cheese"
      /\ Forall (fun segment => Words.noComma segment = true)
                ["Eggs"; " MILK "; ""; "cheddar Cheese"])
  /\ Forall (fun segment =>
               exists before after,
                 segment = before ++ Words.stripped segment ++ after
                 /\ Words.allSpace before = true
                 /\ Words.allSpace after = true)
            ["Eggs"; " MILK "; ""; "cheddar Cheese"]
  /\ Forall (fun x => x <> "" /\ Words.noSpaceAtEnds x = true
                      /\ Words.noCapital x = true)
            ["eggs"; "milk"; "cheddar cheese"].
Proof.
  apply (ingredients_are_the_cleaned_segments "image/jpeg" sampleDataUrl
           "Eggs, MILK ,,cheddar Cheese").
  discriminate.
Defined.

End WordsFacts.

Section GatewayErrors.
Import Js Spec Gateway Prompt.

Lemma firstInlineData_none ps :
  firstInlineData ps = None <-> Forall (fun p => inlineData p = None) ps.
Proof.
  induction ps as [|p ps IH]; simpl.
  - split; [constructor | reflexivity].
  - destruct (inlineData p) as [blob|] eqn:E.
    + split; [discriminate | intros H; inversion H; congruence].
    + rewrite IH. split; [now constructor | intros H; now inversion H].
Qed.

(** [generateRecipeImage] fails exactly when the call rejects, the response
    has no candidate, or no part of the first candidate has inline data; the
    error it throws always names the recipe, and a result it returns always
    starts with the PNG data URI prefix. *)
Theorem generateRecipeImage_fails_iff recipeName answer :
  (failed (generateRecipeImage recipeName answer)
   <-> answer = Rejects \/ answer = Resolves []
       \/ exists first others,
            answer = Resolves (first :: others)
            /\ Forall (fun p => inlineData p = None) (parts first))
  /\ (forall m, generateRecipeImage recipeName answer = Threw m ->
                m = "Failed to generate an image for the recipe: "
                    ++ recipeName ++ ".")
  /\ (forall url, generateRecipeImage recipeName answer = Ok url ->
                  startsWith "data:image/png;base64," url = true).
Proof.
  unfold generateRecipeImage.
  destruct answer as [|[|first others]]; simpl.
  - repeat split; try discriminate.
    + now left.
    + intros _. now exists (imageError recipeName).
    + now intros m [= <-].
  - repeat split; try discriminate.
    + now right; left.
    + intros _. now exists (imageError recipeName).
    + now intros m [= <-].
  - destruct (firstInlineData (parts first)) as [blob|] eqn:E; simpl.
    + repeat split; try discriminate.
      * intros [m H]. discriminate.
      * intros [H | [H | (f & o & H & Hall)]]; try discriminate.
        injection H as <- <-. apply firstInlineData_none in Hall. congruence.
      * intros url [= <-]. reflexivity.
    + repeat split; try discriminate.
      * intros _. right; right. exists first, others.
        split; [reflexivity | now apply firstInlineData_none].
      * intros _. now exists (imageError recipeName).
      * now intros m [= <-].
Qed.

(** [getRecipes] fails exactly when the call rejects or its text is
    missing or not JSON, always with the one fixed message; otherwise it
    returns the parsed recipes as they are, the empty list included. *)
Theorem getRecipes_fails_iff generation :
  (failed (getRecipes generation)
   <-> generation = Rejects \/ generation = Resolves None)
  /\ (forall m, getRecipes generation = Threw m ->
                m = "Failed to generate recipes with Gemini API.")
  /\ (forall recipes, getRecipes generation = Ok recipes <->
                      generation = Resolves (Some recipes)).
Proof.
  destruct generation as [|[recipes|]]; simpl.
  - repeat split; try discriminate; try (now left).
    + intros _. now exists recipesError.
    + now intros m [= <-].
  - repeat split; try discriminate.
    + intros [m H]. discriminate.
    + intros [H | H]; discriminate.
    + now intros [= <-].
    + now intros [= <-].
  - repeat split; try discriminate; try (now right).
    + intros _. now exists recipesError.
    + now intros m [= <-].
Qed.

Lemma contains_refl s : contains s s.
Proof. exists "", "". simpl. now rewrite str_app_empty_r. Qed.

Lemma contains_app_l a s x : contains s x -> contains (a ++ s) x.
Proof.
  intros (b & c & ->). exists (a ++ b), c. now rewrite str_app_assoc.
Qed.

Lemma contains_app_r s b x : contains s x -> contains (s ++ b) x.
Proof.
  intros (a & c & ->). exists a, (c ++ b). now rewrite !str_app_assoc.
Qed.

Lemma contains_join sep l x : In x l -> contains (join sep l) x.
Proof.
  induction l as [|y t IH]; intros Hin; [destruct Hin|].
  destruct t as [|z t'].
  - destruct Hin as [-> | []]. apply contains_refl.
  - rewrite join_cons by discriminate. destruct Hin as [-> | Hin].
    + apply contains_app_r, contains_refl.
    + apply contains_app_l, contains_app_l, IH, Hin.
Qed.

(** The prompt of [getRecipes] holds every ingredient it was given and the
    name of every restriction; without restrictions it has no sentence on
    them. *)
Theorem recipesPrompt_mentions ingredients filters :
  (forall ingredient, In ingredient ingredients ->
                      contains (recipesPrompt ingredients filters) ingredient)
  /\ (forall f, In f filters ->
                contains (recipesPrompt ingredients filters) (restrictionValue f))
  /\ recipesPrompt ingredients []
     = "Based on the following ingredients: " ++ join ", " ingredients
       ++ ", suggest 5 diverse recipes." ++ recipesPromptTail.
Proof.
  unfold recipesPrompt. split; [|split].
  - intros ingredient Hin.
    apply contains_app_l, contains_app_r. now apply contains_join.
  - intros f Hin. do 3 apply contains_app_l. apply contains_app_r.
    unfold filtersText. destruct filters as [|g t]; [destruct Hin|].
    cbn [List.length Nat.ltb Nat.leb].
    apply contains_app_l, contains_app_r, contains_join.
    apply in_map, Hin.
  - reflexivity.
Qed.

End GatewayErrors.

(** ** The pipeline: image failures, filter changes, what ends on the page *)

Section PipelineMore.
Import Js Spec Gateway App Page.

Lemma analyze_error_message fileType rd vision m :
  analyzeFridgeContents fileType rd vision = Threw m -> m = analyzeError.
Proof.
  destruct rd as [| |url]; try (now intros [= <-]).
  destruct vision as [|t]; [now intros [= <-]|].
  rewrite analyze_resolved. discriminate.
Qed.

Lemma getRecipes_error_message generation m :
  getRecipes generation = Threw m -> m = recipesError.
Proof. destruct generation as [|[l|]]; simpl; [| discriminate |]; now intros [= <-]. Qed.

Lemma attachImage_outcome recipe answer :
  match generateRecipeImage (name recipe) answer with
  | Ok url => imageUrl (attachImage recipe answer) = Some url
              /\ cardImage (attachImage recipe answer) = url
  | Threw _ => attachImage recipe answer = recipe
               /\ (imageUrl recipe = None ->
                   cardImage (attachImage recipe answer) = placeholder recipe)
  end.
Proof.
  unfold attachImage.
  destruct (generateRecipeImage (name recipe) answer) as [url|m] eqn:E.
  - split; [reflexivity|]. unfold cardImage. simpl.
    now rewrite (generateRecipeImage_truthy _ _ _ E).
  - split; [reflexivity|]. intros Hnone.
    unfold cardImage, placeholder. now rewrite Hnone.
Qed.

(** However many image calls fail, all of them included, an upload for
    which [analyzeFridgeContents] returned and [getRecipes] returned a list of
    recipes ends without error with every one of them on the page: the recipe
    at each position carries the data URI, shown on its card, when its call
    succeeded; otherwise it is the generated recipe unchanged, whose card shows
    the placeholder keyed by its name when it was generated without
    [imageUrl]. *)
Theorem image_failures_never_fatal st file w ingredients generated :
  analyzeFridgeContents (fileType file) (reading w) (vision w) = Ok ingredients ->
  getRecipes (generation w) = Ok generated ->
  let st' := run st (handleImageUpload file w) in
  error st' = None
  /\ appState st' = Results
  /\ List.length (renderedRecipes st') = List.length generated
  /\ forall i recipe,
       nth_error generated i = Some recipe ->
       exists shown,
         nth_error (renderedRecipes st') i = Some shown
         /\ match generateRecipeImage (name recipe) (synthesis w i) with
            | Ok url => imageUrl shown = Some url /\ cardImage shown = url
            | Threw _ => shown = recipe
                         /\ (imageUrl recipe = None ->
                             cardImage shown = placeholder recipe)
            end.
Proof.
  intros Ha Hg st'. subst st'.
  rewrite (handleImageUpload_success _ _ _ _ _ Ha Hg).
  unfold renderedRecipes, recipesWithImages. cbn [error appState recipes].
  repeat split.
  - apply attachFrom_length.
  - intros i recipe Hi. rewrite attachFrom_nth, Hi. simpl.
    eexists. split; [reflexivity|].
    apply attachImage_outcome.
Qed.

Lemma image_failures_never_fatal_witness :
  let st' := run initialState (handleImageUpload sampleFile allImagesFail) in
  (error st' = None
   /\ appState st' = Results
   /\ List.length (renderedRecipes st') = List.length [omelette; pancakes; toast]
   /\ forall i recipe,
        nth_error [omelette; pancakes; toast] i = Some recipe ->
        exists shown,
          nth_error (renderedRecipes st') i = Some shown
          /\ match generateRecipeImage (name recipe) (synthesis allImagesFail i) with
             | Ok url => imageUrl shown = Some url /\ cardImage shown = url
             | Threw _ => shown = recipe
                          /\ (imageUrl recipe = None ->
                              cardImage shown = placeholder recipe)
             end)
  /\ map cardImage (renderedRecipes st')
     = ["https://picsum.photos/seed/Cheese Omelette/400/300";
        "https://picsum.photos/seed/Pancakes/400/300";
        "https://picsum.photos/seed/Cheese Toast/400/300"].
Proof.
  split; [|reflexivity].
  apply (image_failures_never_fatal initialState sampleFile allImagesFail
           ["eggs"; "milk"; "cheddar cheese"] [omelette; pancakes; toast]).
  - reflexivity.
  - reflexivity.
Defined.

(** A card always has an image source: a recipe without [imageUrl], or
    with the empty string for one, gets the placeholder. *)
Theorem cardImage_never_empty recipe :
  truthy (cardImage recipe) = true
  /\ (imageUrl recipe = None \/ imageUrl recipe = Some ""
      -> cardImage recipe = placeholder recipe).
Proof.
  unfold cardImage, placeholder. split.
  - destruct (imageUrl recipe) as [url|]; [|reflexivity].
    destruct (truthy url) eqn:E; [exact E | reflexivity].
  - intros [-> | ->]; reflexivity.
Qed.

(** An upload never ends on the spinner or with the input disabled: it
    ends on the results page without error, or on the upload page with the
    error message shown. *)
Theorem upload_ends_in_results_or_error st file w :
  let st' := run st (handleImageUpload file w) in
  spinnerShown st' = false
  /\ uploadDisabled st' = false
  /\ imageFile st' = Some file
  /\ ((appState st' = Results /\ error st' = None)
      \/ (appState st' = Initial
          /\ exists message, error st' = Some message
                             /\ shownError st' = Some message)).
Proof.
  intros st'. subst st'. unfold handleImageUpload.
  destruct (analyzeFridgeContents (fileType file) (reading w) (vision w))
    as [ingredients|m] eqn:Ea.
  - destruct (getRecipes (generation w)) as [generated|m] eqn:Eg.
    + simpl. repeat split. now left.
    + apply getRecipes_error_message in Eg. subst m.
      simpl. repeat split. right. split; [reflexivity|].
      now exists recipesError.
  - apply analyze_error_message in Ea. subst m.
    simpl. repeat split. right. split; [reflexivity|].
    now exists analyzeError.
Qed.

(** When recipe generation fails after the ingredients were identified,
    the new ingredients and the new file are stored all the same, while the
    recipe list is the one from before; the page is the upload page, with the
    error shown and without sidebar. *)
Theorem generation_failure_keeps_new_ingredients st file w ingredients :
  analyzeFridgeContents (fileType file) (reading w) (vision w) = Ok ingredients ->
  failed (getRecipes (generation w)) ->
  let st' := run st (handleImageUpload file w) in
  identifiedIngredients st' = ingredients
  /\ imageFile st' = Some file
  /\ recipes st' = recipes st
  /\ activeFilters st' = activeFilters st
  /\ renderedRecipes st' = []
  /\ sidebarShown st' = false
  /\ shownError st' = Some "Failed to generate recipes with Gemini API.".
Proof.
  intros Ha [m Hg] st'. subst st'. unfold handleImageUpload.
  rewrite Ha, Hg. apply getRecipes_error_message in Hg. subst m.
  simpl. repeat split.
Qed.

Lemma generation_failure_keeps_new_ingredients_witness :
  let st' := run afterEarlierUpload (handleImageUpload sampleFile generationFails) in
  identifiedIngredients st' = ["eggs"; "milk"; "cheddar cheese"]
  /\ imageFile st' = Some sampleFile
  /\ recipes st' = recipes afterEarlierUpload
  /\ activeFilters st' = activeFilters afterEarlierUpload
  /\ renderedRecipes st' = []
  /\ sidebarShown st' = false
  /\ shownError st' = Some "Failed to generate recipes with Gemini API.".
Proof.
  apply (generation_failure_keeps_new_ingredients afterEarlierUpload sampleFile
           generationFails ["eggs"; "milk"; "cheddar cheese"]).
  - reflexivity.
  - exists recipesError. reflexivity.
Defined.

(** A filter change whose recipe generation fails keeps the recipes of
    before on the results page, under the error message, and stores the new
    filters. *)
Theorem filter_change_failure_keeps_recipes st identified newFilters w :
  identified <> [] ->
  failed (getRecipes (generation w)) ->
  let st' := run st (handleFilterChange identified newFilters w) in
  appState st' = Results
  /\ shownError st' = Some "Failed to generate recipes with Gemini API."
  /\ recipes st' = recipes st
  /\ renderedRecipes st' = recipes st
  /\ activeFilters st' = newFilters
  /\ identifiedIngredients st' = identifiedIngredients st.
Proof.
  intros Hne [m Hg] st'. subst st'. unfold handleFilterChange.
  destruct identified as [|x t]; [congruence|].
  cbn [List.length Nat.ltb Nat.leb]. rewrite Hg.
  apply getRecipes_error_message in Hg. subst m.
  simpl. repeat split.
Qed.

Lemma filter_change_failure_keeps_recipes_witness :
  let st' := run afterEarlierUpload
                 (handleFilterChange ["eggs"] [Vegan] generationFails) in
  appState st' = Results
  /\ shownError st' = Some "Failed to generate recipes with Gemini API."
  /\ recipes st' = recipes afterEarlierUpload
  /\ renderedRecipes st' = recipes afterEarlierUpload
  /\ activeFilters st' = [Vegan]
  /\ identifiedIngredients st' = identifiedIngredients afterEarlierUpload.
Proof.
  apply (filter_change_failure_keeps_recipes afterEarlierUpload ["eggs"] [Vegan]
           generationFails).
  - discriminate.
  - exists recipesError. reflexivity.
Defined.

(** A filter change that finds ingredients identified always ends on the
    results page, never on the spinner: with the regenerated recipes and no
    error, or with the error shown. *)
Theorem filter_change_ends_in_results st identified newFilters w :
  identified <> [] ->
  let st' := run st (handleFilterChange identified newFilters w) in
  appState st' = Results
  /\ spinnerShown st' = false
  /\ activeFilters st' = newFilters
  /\ ((error st' = None
       /\ exists generated,
            getRecipes (generation w) = Ok generated
            /\ recipes st' = recipesWithImages (synthesis w) generated)
      \/ (exists message, shownError st' = Some message
                          /\ recipes st' = recipes st)).
Proof.
  intros Hne st'. subst st'. unfold handleFilterChange.
  destruct identified as [|x t]; [congruence|].
  cbn [List.length Nat.ltb Nat.leb].
  destruct (getRecipes (generation w)) as [generated|m] eqn:Eg.
  - simpl. repeat split. left. split; [reflexivity|]. now exists generated.
  - apply getRecipes_error_message in Eg. subst m.
    simpl. repeat split. right. now exists recipesError.
Qed.

Lemma filter_change_ends_in_results_witness :
  let st' := run afterEarlierUpload
                 (handleFilterChange ["eggs"] [Vegan] secondImageFails) in
  appState st' = Results
  /\ spinnerShown st' = false
  /\ activeFilters st' = [Vegan]
  /\ ((error st' = None
       /\ exists generated,
            getRecipes (generation secondImageFails) = Ok generated
            /\ recipes st' = recipesWithImages (synthesis secondImageFails) generated)
      \/ (exists message, shownError st' = Some message
                          /\ recipes st' = recipes afterEarlierUpload)).
Proof.
  apply (filter_change_ends_in_results afterEarlierUpload ["eggs"] [Vegan]
           secondImageFails).
  discriminate.
Defined.

End PipelineMore.

(** ** The sidebar *)

Section SidebarFacts.
Import Js Spec Gateway App Sidebar.

Lemma restrictionEqb_eq a b : restrictionEqb a b = true <-> a = b.
Proof. destruct a, b; simpl; split; congruence. Qed.

Lemma restrictionEqb_refl a : restrictionEqb a a = true.
Proof. now apply restrictionEqb_eq. Qed.

Lemma restrictionEqb_sym a b : restrictionEqb a b = restrictionEqb b a.
Proof. now destruct a, b. Qed.

Lemma isActive_In l f : isActive l f = true <-> In f l.
Proof.
  unfold isActive. rewrite existsb_exists. split.
  - intros (x & Hin & H). apply restrictionEqb_eq in H. now subst.
  - intros H. exists f. split; [exact H | apply restrictionEqb_refl].
Qed.

Lemma isActive_false l f : isActive l f = false <-> ~ In f l.
Proof.
  rewrite <- isActive_In. destruct (isActive l f); split; congruence.
Qed.

Lemma In_handleToggle l f g :
  In g (handleToggle l f) <-> (g = f /\ ~ In f l) \/ (g <> f /\ In g l).
Proof.
  unfold handleToggle. destruct (isActive l f) eqn:E.
  - apply isActive_In in E. rewrite filter_In, negb_true_iff. split.
    + intros [Hin Hne]. right. split; [|exact Hin].
      intros ->. now rewrite restrictionEqb_refl in Hne.
    + intros [[-> Hn] | [Hne Hin]]; [contradiction|]. split; [exact Hin|].
      destruct (restrictionEqb g f) eqn:Eg; [|reflexivity].
      apply restrictionEqb_eq in Eg. contradiction.
  - apply isActive_false in E. rewrite in_app_iff. simpl. split.
    + intros [Hin | [<- | []]].
      * right. split; [|exact Hin]. intros ->. contradiction.
      * now left.
    + intros [[-> _] | [_ Hin]]; [right; now left | now left].
Qed.

(** A click on a checkbox flips that filter and no other: afterwards the
    clicked filter is active exactly when it was not, and every other filter
    is active exactly when it was. *)
Theorem toggle_flips_only_the_clicked l f g :
  isActive (handleToggle l f) g
  = if restrictionEqb g f then negb (isActive l f) else isActive l g.
Proof.
  apply eq_true_iff_eq. rewrite isActive_In, In_handleToggle.
  destruct (restrictionEqb g f) eqn:E.
  - apply restrictionEqb_eq in E. subst g.
    rewrite negb_true_iff, isActive_false. tauto.
  - rewrite isActive_In.
    assert (g <> f) by (intros ->; now rewrite restrictionEqb_refl in E).
    tauto.
Qed.

Lemma NoDup_snoc {A} (l : list A) x : NoDup l -> ~ In x l -> NoDup (l ++ [x]).
Proof.
  induction 1 as [|y l Hy Hl IH]; intros Hx; simpl.
  - repeat constructor. intros [].
  - constructor.
    + rewrite in_app_iff. simpl. intros [H | [H | []]]; [contradiction|].
      subst. apply Hx. now left.
    + apply IH. intros H. apply Hx. now right.
Qed.

Lemma handleToggle_NoDup l f : NoDup l -> NoDup (handleToggle l f).
Proof.
  intros H. unfold handleToggle. destruct (isActive l f) eqn:E.
  - now apply NoDup_filter.
  - apply NoDup_snoc; [exact H | now apply isActive_false].
Qed.

Lemma all_in_dietaryOptions l : incl l dietaryOptions.
Proof. intros f _. destruct f; simpl; tauto. Qed.

Lemma clickFilter_activeFilters st f w :
  activeFilters (run st (clickFilter st f w)) = handleToggle (activeFilters st) f.
Proof.
  unfold clickFilter, handleFilterChange.
  destruct (0 <? List.length (identifiedIngredients st))%nat; [|reflexivity].
  destruct (getRecipes (generation w)); reflexivity.
Qed.

Lemma toggles_NoDup clicks : forall l, NoDup l -> NoDup (toggles l clicks).
Proof.
  induction clicks as [|f rest IH]; intros l H; simpl; [exact H|].
  apply IH, handleToggle_NoDup, H.
Qed.

Lemma upload_activeFilters st file w :
  activeFilters (run st (handleImageUpload file w)) = activeFilters st.
Proof.
  unfold handleImageUpload.
  destruct (analyzeFridgeContents (fileType file) (reading w) (vision w));
    [|reflexivity].
  destruct (getRecipes (generation w)); reflexivity.
Qed.

Lemma perform_NoDup st a :
  NoDup (activeFilters st) -> NoDup (activeFilters (Session.perform st a)).
Proof.
  intros H. destruct a as [file w | f w]; cbn [Session.perform].
  - destruct (Session.canUpload st); [|exact H]. now rewrite upload_activeFilters.
  - destruct (Page.sidebarShown st); [|exact H].
    rewrite clickFilter_activeFilters. now apply handleToggle_NoDup.
Qed.

(** In every session, uploads and checkbox clicks in any order from the
    first page and whatever the services answer, the active filters never
    hold a filter twice and so are at most the seven options; a click made
    while the sidebar is on the page leaves the list [handleToggle] built. *)
Theorem session_filters_never_repeat actions :
  let st := Session.after actions in
  NoDup (activeFilters st)
  /\ (List.length (activeFilters st) <= 7)%nat
  /\ forall f w,
       Page.sidebarShown st = true ->
       activeFilters (Session.perform st (Session.Click f w))
       = handleToggle (activeFilters st) f.
Proof.
  intros st. subst st.
  assert (H : NoDup (activeFilters (Session.after actions))).
  { unfold Session.after.
    assert (G : forall st, NoDup (activeFilters st) ->
                NoDup (activeFilters (fold_left Session.perform actions st))).
    { induction actions as [|a rest IH]; intros st Hst; simpl; [exact Hst|].
      apply IH, perform_NoDup, Hst. }
    apply G. constructor. }
  split; [exact H|]. split.
  - change 7%nat with (List.length dietaryOptions).
    apply NoDup_incl_length; [exact H | apply all_in_dietaryOptions].
  - intros f w Hshown. cbn [Session.perform]. rewrite Hshown.
    apply clickFilter_activeFilters.
Qed.

(** A session with an upload, three clicks that regenerate recipes, one of
    them failing. *)
Example session_sample :
  let st := Session.after
              [Session.Upload sampleFile secondImageFails;
               Session.Click Vegan secondImageFails;
               Session.Click Keto generationFails;
               Session.Click Vegan allImagesFail] in
  activeFilters st = [Keto]
  /\ appState st = Results
  /\ identifiedIngredients st = ["eggs"; "milk"; "cheddar cheese"]
  /\ map imageUrl (recipes st) = [None; None; None].
Proof. repeat split. Qed.




(** When ingredient extraction answered without text, the upload stores an
    empty ingredient list, and from then on a click on a checkbox changes the
    active filters and nothing else: no recipes are regenerated, whatever is
    on the page stays. *)
Theorem filters_inert_after_empty_extraction st0 file w0 url f w :
  reading w0 = ReadDataUrl url ->
  vision w0 = Resolves None \/ vision w0 = Resolves (Some "") ->
  let st := run st0 (handleImageUpload file w0) in
  let st' := run st (clickFilter st f w) in
  identifiedIngredients st = []
  /\ st' = mkState (appState st) (error st) (imageFile st)
                   (identifiedIngredients st) (recipes st)
                   (handleToggle (activeFilters st0) f) (selectedRecipe st).
Proof.
  intros Hr Hv st st'. subst st' st.
  assert (Ha : analyzeFridgeContents (fileType file) (reading w0) (vision w0)
               = Ok []).
  { rewrite Hr. destruct Hv as [-> | ->]; reflexivity. }
  unfold clickFilter, handleImageUpload. rewrite Ha.
  destruct (getRecipes (generation w0)) as [generated|m]; split; reflexivity.
Qed.

Lemma filters_inert_after_empty_extraction_witness :
  let st := run initialState (handleImageUpload sampleFile nothingIdentified) in
  let st' := run st (clickFilter st Vegan secondImageFails) in
  identifiedIngredients st = []
  /\ st' = mkState (appState st) (error st) (imageFile st)
                   (identifiedIngredients st) (recipes st)
                   (handleToggle (activeFilters initialState) Vegan)
                   (selectedRecipe st).
Proof.
  apply (filters_inert_after_empty_extraction initialState sampleFile
           nothingIdentified sampleDataUrl Vegan secondImageFails).
  - reflexivity.
  - right. reflexivity.
Defined.

End SidebarFacts.

(** ** Narration: what a run of events makes the synthesiser do *)

Section NarrationMore.
Import Js Spec Modal Trace.

Ltac unfold_step :=
  cbv beta iota zeta delta
    [step dispatch commit sameDeps narrationEffect handlePlayPause handleStop
     stopSpeaking onend speak cancel speaking pause resume begin complete
     isSpeaking currentStepIndex utteranceRef synth spoken queued paused calls
     Bool.eqb andb].

Ltac unfold_step_in H :=
  cbv beta iota zeta delta
    [step dispatch commit sameDeps narrationEffect handlePlayPause handleStop
     stopSpeaking onend speak cancel speaking pause resume begin complete
     isSpeaking currentStepIndex utteranceRef synth spoken queued paused calls
     Bool.eqb andb] in H.

Lemma requests_app a b : requests (a ++ b) = (requests a ++ requests b)%list.
Proof.
  induction a as [|c a IH]; simpl; [reflexivity|].
  destruct c; simpl; now rewrite IH.
Qed.

Lemma play_shape recipe idx ref spk cs :
  (0 <= idx < stepCount recipe)%Z ->
  step recipe (mkState false idx ref (mkSynth spk [] false cs)) ClickPlayPause
  = mkState false idx (Some (freshRequest recipe idx))
      (mkSynth (Some (freshRequest recipe idx)) [] false
         ((match spk with Some _ => cs ++ [CallCancel] | None => cs end)
          ++ [CallSpeak (freshRequest recipe idx)])%list).
Proof.
  intros H. unfold_step.
  destruct (idx >=? stepCount recipe)%Z eqn:Ege; [lia|].
  destruct (idx <? stepCount recipe)%Z eqn:Elt; [|lia].
  destruct spk; reflexivity.
Qed.

Lemma end_shape recipe idx ref u cs :
  step recipe (mkState false idx ref (mkSynth (Some u) [] false cs)) UtteranceEnd
  = mkState false
      (if (closedIndex u <? stepCount recipe - 1)%Z then idx + 1 else idx)%Z
      ref (mkSynth None [] false cs).
Proof.
  unfold_step.
  destruct (closedIndex u <? stepCount recipe - 1)%Z.
  - destruct (idx =? idx + 1)%Z; destruct (idx + 1 =? idx + 1)%Z; reflexivity.
  - rewrite ?Z.eqb_refl. reflexivity.
Qed.

Lemma stop_shape recipe m :
  step recipe m ClickStop
  = mkState false 0 (utteranceRef m)
      (if speaking (synth m) then cancel (synth m) else synth m).
Proof.
  destruct m as [sp idx ref [spk q pz cs]]. unfold_step.
  destruct sp, spk, (idx =? 0)%Z; reflexivity.
Qed.

Lemma close_shape recipe m :
  step recipe m ClickClose
  = mkState false (currentStepIndex m) (utteranceRef m)
      (if speaking (synth m) then cancel (synth m) else synth m).
Proof.
  destruct m as [sp idx ref [spk q pz cs]]. unfold_step.
  destruct sp, spk; rewrite ?Z.eqb_refl; reflexivity.
Qed.

Lemma settled_shape recipe m :
  settled recipe m -> (0 < stepCount recipe)%Z ->
  exists idx ref spk cs,
    m = mkState false idx ref (mkSynth spk [] false cs)
    /\ (0 <= idx < stepCount recipe)%Z
    /\ (forall u, spk = Some u -> closedIndex u = idx).
Proof.
  destruct m as [sp idx ref [spk q pz cs]]. unfold settled. simpl.
  intros (-> & H0 & Hsp & Hpos & _) Hlen.
  destruct (Hpos Hlen) as (Hlt & -> & ->).
  exists idx, ref, spk, cs. repeat split; auto.
Qed.

Lemma fresh_valid recipe idx :
  (0 <= idx < stepCount recipe)%Z -> validRequest recipe (freshRequest recipe idx).
Proof.
  intros H. unfold validRequest, freshRequest. cbn [closedIndex text].
  split; [exact H|].
  unfold textToSpeak, instructionAt.
  destruct (idx <? 0)%Z eqn:E; [lia|].
  destruct (nth_error (instructions recipe) (Z.to_nat idx)) as [s|] eqn:En.
  - now exists s.
  - apply nth_error_None in En. unfold stepCount in H. lia.
Qed.

(** What one event adds to the calls, from a state reached by a recipe
    with instructions. *)
Lemma step_calls recipe m e :
  settled recipe m -> (0 < stepCount recipe)%Z ->
  calls (synth (step recipe m e))
  = (calls (synth m)
     ++ match e with
        | UtteranceEnd => []
        | _ => if speaking (synth m) then [CallCancel] else []
        end
     ++ match e with
        | ClickPlayPause => [CallSpeak (freshRequest recipe (currentStepIndex m))]
        | _ => []
        end)%list.
Proof.
  intros Hs Hlen.
  destruct (settled_shape recipe m Hs Hlen) as (idx & ref & spk & cs & -> & Hi & Hu).
  destruct e.
  - rewrite play_shape by assumption. destruct spk; simpl.
    + now rewrite <- app_assoc.
    + reflexivity.
  - rewrite stop_shape. destruct spk; simpl; now rewrite ?app_nil_r.
  - rewrite close_shape. destruct spk; simpl; now rewrite ?app_nil_r.
  - destruct spk as [u|].
    + rewrite end_shape. simpl. now rewrite app_nil_r.
    + simpl. now rewrite app_nil_r.
Qed.

(** Without instructions no event makes a narration request. *)
Lemma step_requests_none recipe m e :
  settled recipe m -> stepCount recipe = 0%Z ->
  requests (calls (synth (step recipe m e))) = requests (calls (synth m)).
Proof.
  destruct m as [sp idx ref [spk q pz cs]]. unfold settled. simpl.
  intros (-> & _ & _ & _ & Hzero) Ez. destruct (Hzero Ez) as [-> ->].
  match goal with |- requests (calls (synth ?t)) = _ => remember t as m' eqn:Hm' end.
  destruct e, sp, pz; unfold_step_in Hm'; rewrite ?Ez in Hm'; cbn in Hm';
    subst m'; cbn [calls synth]; rewrite ?requests_app; simpl;
    now rewrite ?app_nil_r.
Qed.

Lemma run_invariant recipe (P : State -> Prop) :
  (forall m e, settled recipe m -> P m -> P (step recipe m e)) ->
  forall es m, settled recipe m -> P m -> P (runEvents recipe m es).
Proof.
  intros Hstep. induction es as [|e es IH]; intros m Hs Hp; simpl; [exact Hp|].
  apply IH; [now apply step_settled | now apply Hstep].
Qed.

Lemma stepCount_cases recipe :
  stepCount recipe = 0%Z \/ (0 < stepCount recipe)%Z.
Proof. pose proof (stepCount_nonneg recipe). lia. Qed.

(** Every narration request ever made is for a step the recipe has and
    carries the text ["Step n. "] followed by that step's instruction; the
    synthesiser is never asked to say [undefined]. *)
Theorem every_request_is_a_step recipe es :
  Forall (validRequest recipe)
         (requests (calls (synth (runEvents recipe initial es)))).
Proof.
  apply (run_invariant recipe
           (fun m => Forall (validRequest recipe) (requests (calls (synth m))))).
  - intros m e Hs Hp. destruct (stepCount_cases recipe) as [Ez | Hlen].
    + now rewrite step_requests_none.
    + rewrite step_calls by assumption. rewrite !requests_app.
      apply Forall_app. split; [exact Hp|]. apply Forall_app. split.
      * destruct e; try constructor; destruct (speaking (synth m)); constructor.
      * destruct e; try constructor; [|constructor].
        apply fresh_valid.
        destruct (settled_shape recipe m Hs Hlen) as (idx & ? & ? & ? & -> & Hi & _).
        exact Hi.
  - apply initial_settled.
  - constructor.
Qed.

Lemma requests_cancel_or_none (b : bool) :
  requests (if b then [CallCancel] else []) = [].
Proof. now destruct b. Qed.

(** With at least one instruction, the number of narration requests made
    is the number of clicks on the play button: every click speaks one step
    and nothing else ever speaks; in particular the end of an utterance does
    not start the next one.  Without instructions nothing is ever spoken. *)
Theorem one_request_per_play_click recipe es :
  List.length (requests (calls (synth (runEvents recipe initial es))))
  = if (0 <? stepCount recipe)%Z then playClicks es else 0%nat.
Proof.
  assert (H : forall es m, settled recipe m ->
            List.length (requests (calls (synth (runEvents recipe m es))))
            = (List.length (requests (calls (synth m)))
               + if (0 <? stepCount recipe)%Z then playClicks es else 0)%nat).
  { clear es. induction es as [|e es IH]; intros m Hs.
    - simpl. destruct (0 <? stepCount recipe)%Z; unfold playClicks; simpl; lia.
    - cbn [runEvents fold_left]. fold (runEvents recipe (step recipe m e) es).
      rewrite IH by now apply step_settled.
      destruct (stepCount_cases recipe) as [Ez | Hlen].
      + rewrite step_requests_none by assumption.
        destruct (0 <? stepCount recipe)%Z eqn:E; [lia | reflexivity].
      + rewrite step_calls by assumption.
        rewrite !requests_app, !length_app.
        destruct (0 <? stepCount recipe)%Z eqn:E; [|lia].
        unfold playClicks.
        destruct e; cbn [List.filter isPlayClick List.length];
          rewrite ?requests_cancel_or_none; simpl; lia. }
  rewrite (H es initial (initial_settled recipe)). reflexivity.
Qed.

(** For a recipe with at least one instruction the synthesiser's [pause]
    and [resume] are never called and it is never paused: the effect lowers
    the speaking flag as soon as it has spoken, so the play/pause button
    always takes its play branch. *)
Theorem pause_never_called recipe es :
  (0 < stepCount recipe)%Z ->
  let m := runEvents recipe initial es in
  Forall (fun c => isSpeakOrCancel c = true) (calls (synth m))
  /\ paused (synth m) = false
  /\ isSpeaking m = false.
Proof.
  intros Hlen m. subst m.
  pose proof (runEvents_settled recipe es initial (initial_settled recipe)) as Hs.
  destruct (settled_shape recipe _ Hs Hlen) as (idx & ref & spk & cs & E & _).
  split; [|rewrite E; split; reflexivity]. clear E.
  apply (run_invariant recipe
           (fun m => Forall (fun c => isSpeakOrCancel c = true) (calls (synth m)))).
  - intros m e Hm Hp. rewrite step_calls by assumption.
    apply Forall_app. split; [exact Hp|]. apply Forall_app. split.
    + destruct e; try constructor; destruct (speaking (synth m));
        repeat constructor.
    + destruct e; repeat constructor.
  - apply initial_settled.
  - constructor.
Qed.

Lemma pause_never_called_witness :
  let m := runEvents omelette initial
             [ClickPlayPause; ClickPlayPause; UtteranceEnd; ClickStop] in
  Forall (fun c => isSpeakOrCancel c = true) (calls (synth m))
  /\ paused (synth m) = false
  /\ isSpeaking m = false.
Proof.
  apply (pause_never_called omelette
           [ClickPlayPause; ClickPlayPause; UtteranceEnd; ClickStop]).
  reflexivity.
Defined.

(** In any state reached with a recipe that has instructions, a click on
    play makes exactly one narration request, for the current step, which
    becomes the utterance being spoken; the index stays and the speaking flag
    is down again once the effect has run. *)
Theorem play_narrates_current_step recipe es :
  (0 < stepCount recipe)%Z ->
  let m := runEvents recipe initial es in
  let m' := step recipe m ClickPlayPause in
  requests (callsAfter (List.length (calls (synth m))) m')
  = [freshRequest recipe (currentStepIndex m)]
  /\ spoken (synth m') = Some (freshRequest recipe (currentStepIndex m))
  /\ queued (synth m') = []
  /\ currentStepIndex m' = currentStepIndex m
  /\ isSpeaking m' = false.
Proof.
  intros Hlen m m'. subst m'.
  pose proof (runEvents_settled recipe es initial (initial_settled recipe)) as Hs.
  fold m in Hs.
  destruct (settled_shape recipe m Hs Hlen) as (idx & ref & spk & cs & E & Hi & _).
  unfold callsAfter. rewrite (step_calls recipe m ClickPlayPause Hs Hlen).
  rewrite skipn_length_app, requests_app, requests_cancel_or_none.
  rewrite E, play_shape by assumption. repeat split.
Qed.

Lemma play_narrates_current_step_witness :
  let m := runEvents omelette initial [ClickPlayPause; UtteranceEnd] in
  let m' := step omelette m ClickPlayPause in
  requests (callsAfter (List.length (calls (synth m))) m')
  = [freshRequest omelette (currentStepIndex m)]
  /\ spoken (synth m') = Some (freshRequest omelette (currentStepIndex m))
  /\ queued (synth m') = []
  /\ currentStepIndex m' = currentStepIndex m
  /\ isSpeaking m' = false.
Proof.
  apply (play_narrates_current_step omelette [ClickPlayPause; UtteranceEnd]).
  reflexivity.
Defined.

(** When the utterance being spoken ends by itself, the index moves to the
    next step unless the step was the last, and nothing is asked of the
    synthesiser: the next step is not narrated until play is clicked. *)
Theorem utterance_end_advances_silently recipe es u :
  (0 < stepCount recipe)%Z ->
  spoken (synth (runEvents recipe initial es)) = Some u ->
  let m := runEvents recipe initial es in
  let m' := step recipe m UtteranceEnd in
  calls (synth m') = calls (synth m)
  /\ spoken (synth m') = None
  /\ isSpeaking m' = false
  /\ currentStepIndex m'
     = (if (currentStepIndex m <? stepCount recipe - 1)%Z
        then currentStepIndex m + 1 else currentStepIndex m)%Z.
Proof.
  intros Hlen Hu m m'. subst m'.
  pose proof (runEvents_settled recipe es initial (initial_settled recipe)) as Hs.
  fold m in Hs, Hu.
  destruct (settled_shape recipe m Hs Hlen) as (idx & ref & spk & cs & E & Hi & Hc).
  rewrite E in Hu |- *. cbn [synth spoken] in Hu. subst spk.
  rewrite end_shape. rewrite (Hc u eq_refl). repeat split.
Qed.

Lemma utterance_end_advances_silently_witness :
  let m := runEvents omelette initial [ClickPlayPause] in
  let m' := step omelette m UtteranceEnd in
  calls (synth m') = calls (synth m)
  /\ spoken (synth m') = None
  /\ isSpeaking m' = false
  /\ currentStepIndex m'
     = (if (currentStepIndex m <? stepCount omelette - 1)%Z
        then currentStepIndex m + 1 else currentStepIndex m)%Z.
Proof.
  apply (utterance_end_advances_silently omelette [ClickPlayPause]
           (freshRequest omelette 0)).
  - reflexivity.
  - reflexivity.
Defined.

(** From any state whatever, the stop button and the close button both
    lower the speaking flag, silence the synthesiser with one [cancel] if it
    was speaking and make no request; stop puts the index back to 0, close
    keeps it, so the recipe opened again goes on at the same step.  Neither
    touches the synthesiser's paused flag. *)
Theorem stop_and_close_silence recipe m :
  let stopped := step recipe m ClickStop in
  let closed := step recipe m ClickClose in
  (isSpeaking stopped = false /\ currentStepIndex stopped = 0%Z
   /\ spoken (synth stopped) = None
   /\ paused (synth stopped) = paused (synth m)
   /\ requests (calls (synth stopped)) = requests (calls (synth m)))
  /\ (isSpeaking closed = false /\ currentStepIndex closed = currentStepIndex m
      /\ spoken (synth closed) = None
      /\ paused (synth closed) = paused (synth m)
      /\ requests (calls (synth closed)) = requests (calls (synth m))).
Proof.
  intros stopped closed. subst stopped closed.
  rewrite stop_shape, close_shape.
  destruct m as [sp idx ref [spk q pz cs]]. unfold speaking, cancel. simpl.
  destruct spk; simpl; rewrite ?requests_app; simpl; rewrite ?app_nil_r;
    repeat split.
Qed.

Lemma pair_shape recipe j ref cs es :
  (j < List.length (instructions recipe))%nat ->
  runEvents recipe (mkState false (Z.of_nat j) ref (mkSynth None [] false cs))
    (ClickPlayPause :: UtteranceEnd :: es)
  = runEvents recipe
      (mkState false
         (Z.of_nat (Nat.min (S j) (List.length (instructions recipe) - 1)))
         (Some (freshRequest recipe (Z.of_nat j)))
         (mkSynth None [] false
            (cs ++ [CallSpeak (freshRequest recipe (Z.of_nat j))])%list))
      es.
Proof.
  intros Hj. unfold runEvents. cbn [fold_left].
  rewrite play_shape by (unfold stepCount; lia).
  rewrite end_shape. cbn [closedIndex freshRequest].
  f_equal. f_equal.
  unfold stepCount.
  destruct (Z.of_nat j <? Z.of_nat (List.length (instructions recipe)) - 1)%Z eqn:E.
  - apply Z.ltb_lt in E. lia.
  - apply Z.ltb_ge in E. lia.
Qed.

Lemma walkthrough_from recipe :
  forall k j ref cs,
    (k = 0 \/ j + k <= List.length (instructions recipe))%nat ->
    exists ref' cs',
      runEvents recipe
        (mkState false (Z.of_nat j) ref (mkSynth None [] false cs))
        (walkthrough k)
      = mkState false
          (Z.of_nat (if (k =? 0)%nat then j
                     else Nat.min (j + k) (List.length (instructions recipe) - 1)))
          ref' (mkSynth None [] false cs')
      /\ requests cs' = (requests cs ++ requestsFor recipe j k)%list.
Proof.
  induction k as [|k IH]; intros j ref cs Hk.
  - exists ref, cs. split; [reflexivity|].
    unfold requestsFor. simpl. now rewrite app_nil_r.
  - destruct Hk as [Hk | Hk]; [discriminate|].
    cbn [walkthrough]. rewrite pair_shape by lia.
    destruct k as [|k'].
    + eexists _, _. split.
      * cbn [walkthrough runEvents fold_left Nat.eqb]. f_equal. f_equal. lia.
      * rewrite requests_app. reflexivity.
    + assert (Hmin : Nat.min (S j) (List.length (instructions recipe) - 1) = S j)
        by lia.
      rewrite Hmin.
      destruct (IH (S j) (Some (freshRequest recipe (Z.of_nat j)))
                  (cs ++ [CallSpeak (freshRequest recipe (Z.of_nat j))])%list
                  ltac:(right; lia))
        as (ref' & cs' & Hrun & Hreq).
      exists ref', cs'. split.
      * rewrite Hrun. cbn [Nat.eqb]. f_equal. f_equal. lia.
      * rewrite Hreq, requests_app. unfold requestsFor. simpl.
        now rewrite <- app_assoc.
Qed.

(** Walking through a recipe, one click on play and one utterance heard to
    its end at a time: after [k] rounds, [k] at most the number of
    instructions, the steps 1 to [k] have been narrated once each, in order;
    the index is at step [k + 1], or still at the last step when all have
    been narrated. *)
Theorem walkthrough_narrates_in_order recipe k :
  (k <= List.length (instructions recipe))%nat ->
  let m := runEvents recipe initial (walkthrough k) in
  requests (calls (synth m)) = requestsFor recipe 0 k
  /\ spoken (synth m) = None
  /\ currentStepIndex m
     = Z.of_nat (Nat.min k (List.length (instructions recipe) - 1)).
Proof.
  intros Hk m. subst m.
  destruct (walkthrough_from recipe k 0%nat None [] ltac:(right; lia))
    as (ref' & cs' & Hrun & Hreq).
  change (mkState false (Z.of_nat 0) None (mkSynth None [] false [])) with initial
    in Hrun.
  rewrite Hrun. cbn [synth calls spoken currentStepIndex].
  repeat split; [exact Hreq|].
  destruct k; simpl; [lia | reflexivity].
Qed.

Lemma walkthrough_narrates_in_order_witness :
  let m := runEvents omelette initial (walkthrough 3) in
  requests (calls (synth m)) = requestsFor omelette 0 3
  /\ spoken (synth m) = None
  /\ currentStepIndex m
     = Z.of_nat (Nat.min 3 (List.length (instructions omelette) - 1)).
Proof.
  apply (walkthrough_narrates_in_order omelette 3). simpl. lia.
Defined.

End NarrationMore.
